(** * ReadBuddy: the streaming audio helpers and the progress store

    A shallow embedding of [src/utils/audioUtils.ts] (PCM16 encode and
    decode, base64 transport, one-shot playback, [LiveAudioPlayer]) and
    of [DatabaseService.addSession], with the properties the
    specification states about them; then of the code around them (the
    microphone handler of the live session, the other requests of
    [DatabaseService], its client [MockApiClient], the aggregates of
    the backend route and the learner's history in a story request),
    with further properties of that code. *)

From Stdlib Require Import ZArith QArith Qpower Qabs Lia Lqa List Bool.
From Stdlib Require Import Strings.Byte.
From Stdlib Require Import Floats.
From stdpp Require Import base option list strings gmap sorting.

Local Open Scope Z_scope.

(* ===================================================================== *)
(** * Part I: the model *)
(* ===================================================================== *)

(** ** JavaScript numbers

    A JavaScript [number] is an IEEE-754 binary64 value.  The audio code
    only compares samples, multiplies them by [0x8000] or [0x7FFF] and
    divides 16-bit integers by [32768.0]; on the values it can meet
    (binary32 samples read from a [Float32Array], 16-bit integers) every
    one of these results is representable, so no rounding takes place
    (lemmas [scale_representable] and [decode_representable] below).  A
    finite number is therefore carried as the rational it denotes.  The
    two zeros are identified: the code never divides by a sample and
    [ToInt16] sends both to [0]. *)

Module JS.

Inductive number : Type :=
| NaN : number
| Infinity (negative : bool) : number
| Finite (q : Q) : number.

Definition of_Z (z : Z) : number := Finite (inject_Z z).

(** [a < b]: false as soon as one side is [NaN]. *)
Definition lt (a b : number) : bool :=
  match a, b with
  | NaN, _ | _, NaN => false
  | Infinity true, Infinity true => false
  | Infinity true, _ => true
  | _, Infinity true => false
  | Infinity false, _ => false
  | _, Infinity false => true
  | Finite x, Finite y => negb (Qle_bool y x)
  end.

(** [Math.min(a, b)] and [Math.max(a, b)]: [NaN] if an argument is. *)
Definition Math_min (a b : number) : number :=
  match a, b with
  | NaN, _ | _, NaN => NaN
  | _, _ => if lt b a then b else a
  end.

Definition Math_max (a b : number) : number :=
  match a, b with
  | NaN, _ | _, NaN => NaN
  | _, _ => if lt a b then b else a
  end.

(** [a * b]: the exact product; infinity times zero is [NaN]. *)
Definition mul (a b : number) : number :=
  match a, b with
  | NaN, _ | _, NaN => NaN
  | Finite x, Finite y => Finite (x * y)
  | Infinity s, Finite y | Finite y, Infinity s =>
      if Qeq_bool y 0 then NaN
      else Infinity (xorb s (negb (Qle_bool 0 y)))
  | Infinity s, Infinity t => Infinity (xorb s t)
  end.

(** [truncate]: drop the fractional part, rounding toward zero. *)
Definition truncate (q : Q) : Z := Z.quot (Qnum q) (Z.pos (Qden q)).

(** [ToInt16], the conversion applied by a store into an [Int16Array]:
    [NaN] and the infinities become [0]; otherwise truncate, reduce
    modulo [2^16] and read the result as a signed 16-bit integer. *)
Definition ToInt16 (x : number) : Z :=
  match x with
  | NaN | Infinity _ => 0
  | Finite q =>
      let int16bit := truncate q mod 65536 in
      if 32768 <=? int16bit then int16bit - 65536 else int16bit
  end.

(** [z / 32768.0] for an integer [z]. *)
Definition div_32768 (z : Z) : number := Finite (z # 32768).

End JS.

(** ** Numbers without fractional part

    The stars and streaks of the progress store are counts, but they
    are numbers all the same: from [2^53] on not every integer is a
    number, and a sum is the number nearest to the exact sum (of two
    nearest ones, the one with the even significand), or an infinity
    from [2^1024 - 2^970] on.  Such a number is carried as the integer
    it denotes, and [add] is [+] with its rounding written out. *)

Module Number.

Inductive number : Type :=
| NaN : number
| Infinity (negative : bool) : number
| Int (z : Z) : number.

(** The multiple of [2^k] nearest to [z]; of two nearest ones, the
    even multiple. *)
Definition nearest_even (k z : Z) : Z :=
  let q := z / 2 ^ k in
  let r := z mod 2 ^ k in
  let half := 2 ^ (k - 1) in
  let m := if r <? half then q
           else if half <? r then q + 1
           else if Z.even q then q else q + 1 in
  m * 2 ^ k.

(** The number nearest to the integer [z]: [z] itself below [2^53],
    else a multiple of [2^(e - 52)] for [2^e <= |z| < 2^(e + 1)]. *)
Definition round (z : Z) : number :=
  let e := Z.log2 (Z.abs z) in
  if e <=? 52 then Int z
  else
    let r := nearest_even (e - 52) z in
    if 2 ^ 1024 <=? Z.abs r then Infinity (z <? 0) else Int r.

(** [a + b]. *)
Definition add (a b : number) : number :=
  match a, b with
  | NaN, _ | _, NaN => NaN
  | Infinity s, Infinity t => if Bool.eqb s t then Infinity s else NaN
  | Infinity s, Int _ | Int _, Infinity s => Infinity s
  | Int x, Int y => round (x + y)
  end.

(** [a <= b]: false as soon as one side is [NaN]. *)
Definition le (a b : number) : bool :=
  match a, b with
  | NaN, _ | _, NaN => false
  | Infinity true, _ => true
  | _, Infinity false => true
  | Infinity false, _ => false
  | _, Infinity true => false
  | Int x, Int y => x <=? y
  end.

End Number.

(** ** Typed arrays over an [ArrayBuffer]

    An [ArrayBuffer] (and a [Uint8Array] over it) is a list of bytes.  An
    [Int16Array] is the list of its elements, each in
    [-32768 .. 32767]; its buffer holds them two bytes each, in the
    platform's byte order, which is little-endian wherever a browser
    runs. *)

Inductive exn : Type :=
| InvalidCharacterError   (* atob / btoa *)
| RangeError              (* Int16Array over a buffer of odd length *)
| NotSupportedError       (* createBuffer with zero frames *)
| InvalidStateError       (* stop() on a source that was never started *)
| PlatformError (code : nat).  (* anything the audio subsystem raises *)

Definition byte_val (b : byte) : Z := Z.of_N (Byte.to_N b).

Definition int16_of_bytes (lo hi : byte) : Z :=
  let u := byte_val lo + 256 * byte_val hi in
  if 32768 <=? u then u - 65536 else u.

(** [new Int16Array(buffer)]: throws [RangeError] unless the byte length
    is a multiple of 2. *)
Fixpoint Int16Array_of_buffer (buffer : list byte) : exn + list Z :=
  match buffer with
  | [] => inr []
  | [_] => inl RangeError
  | lo :: hi :: rest =>
      match Int16Array_of_buffer rest with
      | inl e => inl e
      | inr l => inr (int16_of_bytes lo hi :: l)
      end
  end.

Definition byte_of_Z (z : Z) : byte :=
  match Byte.of_N (Z.to_N (z mod 256)) with
  | Some b => b
  | None => x00
  end.

(** [int16Array.buffer]. *)
Definition buffer_of_Int16Array (a : list Z) : list byte :=
  flat_map (fun z => [byte_of_Z z; byte_of_Z ((z mod 65536) / 256)]) a.

(** ** The PCM encoder: [float32ToInt16PCM] *)

(** [Math.max(-1, Math.min(1, x))]. *)
Definition clamp (x : JS.number) : JS.number :=
  JS.Math_max (JS.of_Z (-1)) (JS.Math_min (JS.of_Z 1) x).

(** The loop body: one sample of the [Float32Array] to one element of
    the [Int16Array]. *)
Definition encode_sample (x : JS.number) : Z :=
  let s := clamp x in
  JS.ToInt16
    (if JS.lt s (JS.of_Z 0) then JS.mul s (JS.of_Z 32768)
     else JS.mul s (JS.of_Z 32767)).

Definition encode_samples (float32Array : list JS.number) : list Z :=
  map encode_sample float32Array.

Definition float32ToInt16PCM (float32Array : list JS.number) : list byte :=
  buffer_of_Int16Array (encode_samples float32Array).

(** ** The PCM decoder shared by [playPCMAudio] and [playChunk]

    [channelData[i] = dataInt16[i * numChannels + channel] / 32768.0]
    with [numChannels = 1]. *)
Definition channelData_of (dataInt16 : list Z) : list JS.number :=
  map JS.div_32768 dataInt16.

Definition decode_pcm (data : list byte) : exn + list JS.number :=
  match Int16Array_of_buffer data with
  | inl e => inl e
  | inr dataInt16 => inr (channelData_of dataInt16)
  end.

(** ** Base64 transport

    A JavaScript string is the list of its UTF-16 code units.  [btoa] and
    [atob] are the platform's functions, modelled after their definition
    in the HTML standard (forgiving-base64 encode and decode). *)

Module Base64.

Local Open Scope N_scope.

Abbreviation js_string := (list N).

(** The base64 alphabet: [A-Z], [a-z], [0-9], [+], [/]. *)
Definition alphabet_char (i : N) : N :=
  if i <? 26 then i + 65
  else if i <? 52 then i + 71
  else if i <? 62 then i - 4
  else if i =? 62 then 43
  else 47.

Definition alphabet_index (c : N) : option N :=
  if (65 <=? c) && (c <=? 90) then Some (c - 65)
  else if (97 <=? c) && (c <=? 122) then Some (c - 71)
  else if (48 <=? c) && (c <=? 57) then Some (c + 4)
  else if c =? 43 then Some 62
  else if c =? 47 then Some 63
  else None.

Definition equals_sign : N := 61.

(** The 6-bit groups of a byte sequence, most significant first; a last
    group that is not full is completed with zero bits. *)
Fixpoint sextets_of (bytes : list N) : list N :=
  match bytes with
  | [] => []
  | [a] => [a / 4; (a mod 4) * 16]
  | [a; b] => [a / 4; (a mod 4) * 16 + b / 16; (b mod 16) * 4]
  | a :: b :: c :: rest =>
      a / 4 :: (a mod 4) * 16 + b / 16 :: (b mod 16) * 4 + c / 64
        :: c mod 64 :: sextets_of rest
  end.

Definition padding (len : nat) : js_string :=
  match (len mod 3)%nat with
  | 1%nat => [equals_sign; equals_sign]
  | 2%nat => [equals_sign]
  | _ => []
  end.

(** [btoa(data)]: throws if a code unit is above [0xFF]. *)
Definition btoa (data : js_string) : exn + js_string :=
  if forallb (fun c => c <=? 255) data
  then inr (map alphabet_char (sextets_of data) ++ padding (length data))
  else inl InvalidCharacterError.

Definition is_ascii_whitespace (c : N) : bool :=
  (c =? 9) || (c =? 10) || (c =? 12) || (c =? 13) || (c =? 32).

(** Remove one trailing [=], if there is one. *)
Definition remove_trailing_equals (data : js_string) : js_string :=
  match rev data with
  | c :: r => if c =? equals_sign then rev r else data
  | [] => data
  end.

(** If the length is a multiple of 4, one or two trailing [=] go. *)
Definition strip_padding (data : js_string) : js_string :=
  if (length data mod 4 =? 0)%nat
  then remove_trailing_equals (remove_trailing_equals data)
  else data.

Fixpoint mapM_index (data : js_string) : option (list N) :=
  match data with
  | [] => Some []
  | c :: rest =>
      match alphabet_index c, mapM_index rest with
      | Some i, Some l => Some (i :: l)
      | _, _ => None
      end
  end.

(** Regroup 6-bit values into bytes; 12 left-over bits give one byte and
    18 give two, the surplus bits being dropped. *)
Fixpoint bytes_of_sextets (s : list N) : list N :=
  match s with
  | a :: b :: c :: d :: rest =>
      a * 4 + b / 16 :: (b mod 16) * 16 + c / 4 :: (c mod 4) * 64 + d
        :: bytes_of_sextets rest
  | [a; b; c] => [a * 4 + b / 16; (b mod 16) * 16 + c / 4]
  | [a; b] => [a * 4 + b / 16]
  | _ => []
  end.

(** [atob(data)]. *)
Definition atob (data : js_string) : exn + js_string :=
  let data := filter (fun c => is_ascii_whitespace c = false) data in
  let data := strip_padding data in
  if (length data mod 4 =? 1)%nat then inl InvalidCharacterError
  else match mapM_index data with
       | None => inl InvalidCharacterError
       | Some s => inr (bytes_of_sextets s)
       end.

(** A character of the encoded text: alphabet or padding. *)
Definition is_base64_char (c : N) : bool :=
  match alphabet_index c with
  | Some _ => true
  | None => c =? equals_sign
  end.

End Base64.

(** [String.fromCharCode(bytes[i])] and [binaryString.charCodeAt(i)]
    stored into a [Uint8Array] (which keeps the low 8 bits). *)
Definition String_fromCharCode (b : byte) : N := Byte.to_N b.

Definition Uint8_store (c : N) : byte :=
  match Byte.of_N (c mod 256)%N with
  | Some b => b
  | None => x00
  end.

Definition base64ToUint8Array (base64 : Base64.js_string) : exn + list byte :=
  match Base64.atob base64 with
  | inl e => inl e
  | inr binaryString => inr (map Uint8_store binaryString)
  end.

Definition arrayBufferToBase64 (buffer : list byte) : exn + Base64.js_string :=
  let binary := map String_fromCharCode buffer in
  Base64.btoa binary.

(** ** The microphone path of the live session

    [processorNode.onaudioprocess]: one buffer of microphone samples is
    encoded and handed to [session.sendAudio] as text, which passes it
    on to the session of the SDK unless [disconnect] has set
    [currentSession] to [null].  [sendRealtimeInput] is the SDK's: it
    is given as what it throws, if anything, on an input.  The handler
    yields the inputs it has handed to the SDK and what it throws. *)

(** [{ media: { mimeType, data } }]. *)
Record realtime_input : Type := {
  mimeType : string;
  data : Base64.js_string
}.

Definition sendAudio (currentSession : bool)
    (sendRealtimeInput : realtime_input -> option exn)
    (base64Audio : Base64.js_string) : list realtime_input * option exn :=
  if currentSession then
    let input :=
      {| mimeType := "audio/pcm;rate=16000"; data := base64Audio |} in
    ([input], sendRealtimeInput input)
  else ([], None).

Definition onaudioprocess (currentSession : bool)
    (sendRealtimeInput : realtime_input -> option exn)
    (inputData : list JS.number) : list realtime_input * option exn :=
  let pcmBuffer := float32ToInt16PCM inputData in
  match arrayBufferToBase64 pcmBuffer with
  | inl e => ([], Some e)
  | inr base64 => sendAudio currentSession sendRealtimeInput base64
  end.

(** ** One-shot playback: [playPCMAudio]

    The function is [async] and its whole body sits in one
    [try { ... } catch (e) { console.error(...) }].  A run of the body
    either completes, throws, or stays suspended at an [await] whose
    promise never settles. *)

Inductive completion (A : Type) : Type :=
| Normal (a : A)
| Throw (e : exn)
| Suspended.
Arguments Normal {A} a.
Arguments Throw {A} e.
Arguments Suspended {A}.

Inductive AudioContextState : Type := suspended | running.

(** What the page holds: the module-level [audioContext] singleton
    ([None] is [null]), the errors written by [console.error], and the
    buffers handed to [source.start(0)] so far. *)
Record page : Type := {
  audioContext : option AudioContextState;
  console_errors : list exn;
  sources_started : list (list JS.number)
}.

(** What the host audio subsystem answers: the [AudioContext]
    constructor throws or yields a context in some state, [resume()]
    fulfils, rejects or never settles, and the node calls
    ([createBufferSource], [connect], [start]) may throw. *)
Inductive resume_outcome : Type :=
| Resumed
| ResumeRejected (e : exn)
| ResumeUnsettled.

Record platform : Type := {
  new_AudioContext : exn + AudioContextState;
  resume : resume_outcome;
  start_source : option exn
}.

Definition M (A : Type) : Type := page -> completion A * page.

Definition ret {A} (a : A) : M A := fun pg => (Normal a, pg).

Definition bind {A B} (m : M A) (k : A -> M B) : M B :=
  fun pg =>
    match m pg with
    | (Normal a, pg') => k a pg'
    | (Throw e, pg') => (Throw e, pg')
    | (Suspended, pg') => (Suspended, pg')
    end.

Notation "'let!' x ':=' m 'in' k" := (bind m (fun x => k))
  (at level 10, x name, m at level 100, k at level 200).
Notation "'do!' m 'in' k" := (bind m (fun _ => k))
  (at level 10, m at level 100, k at level 200).

Definition throw {A} (e : exn) : M A := fun pg => (Throw e, pg).

Definition lift {A} (r : exn + A) : M A :=
  match r with inl e => throw e | inr a => ret a end.

Definition try_catch {A} (body : M A) (handler : exn -> M A) : M A :=
  fun pg =>
    match body pg with
    | (Throw e, pg') => handler e pg'
    | r => r
    end.

Definition console_error (e : exn) : M unit :=
  fun pg => (Normal tt,
             {| audioContext := audioContext pg;
                console_errors := console_errors pg ++ [e];
                sources_started := sources_started pg |}).

(** [if (!audioContext) audioContext = new AudioContext(...)]. *)
Definition get_audioContext (pf : platform) : M AudioContextState :=
  fun pg =>
    match audioContext pg with
    | Some st => (Normal st, pg)
    | None =>
        match new_AudioContext pf with
        | inl e => (Throw e, pg)
        | inr st =>
            (Normal st,
             {| audioContext := Some st;
                console_errors := console_errors pg;
                sources_started := sources_started pg |})
        end
    end.

(** [if (audioContext.state === 'suspended') await audioContext.resume()]. *)
Definition resume_if_suspended (pf : platform) (st : AudioContextState)
  : M unit :=
  match st with
  | running => ret tt
  | suspended =>
      fun pg =>
        match resume pf with
        | Resumed =>
            (Normal tt,
             {| audioContext := Some running;
                console_errors := console_errors pg;
                sources_started := sources_started pg |})
        | ResumeRejected e => (Throw e, pg)
        | ResumeUnsettled => (Suspended, pg)
        end
  end.

(** [createBuffer(numChannels, frameCount, sampleRate)] refuses a buffer
    of zero frames. *)
Definition createBuffer (frameCount : nat) : exn + unit :=
  match frameCount with
  | O => inl NotSupportedError
  | S _ => inr tt
  end.

(** [createBufferSource(); source.buffer = ...; connect; start(0)]. *)
Definition start_now (pf : platform) (channelData : list JS.number) : M unit :=
  fun pg =>
    match start_source pf with
    | Some e => (Throw e, pg)
    | None =>
        (Normal tt,
         {| audioContext := audioContext pg;
            console_errors := console_errors pg;
            sources_started := sources_started pg ++ [channelData] |})
    end.

Definition playPCMAudio_body (pf : platform) (base64Audio : Base64.js_string)
  : M unit :=
  let! st := get_audioContext pf in
  do! resume_if_suspended pf st in
  let! data := lift (base64ToUint8Array base64Audio) in
  let! dataInt16 := lift (Int16Array_of_buffer data) in
  let frameCount := length dataInt16 in
  do! lift (createBuffer frameCount) in
  let channelData := channelData_of dataInt16 in
  start_now pf channelData.

Definition playPCMAudio (pf : platform) (base64Audio : Base64.js_string)
  : M unit :=
  try_catch (playPCMAudio_body pf base64Audio) console_error.

(** A page that has not played anything yet, and a platform on which
    every call succeeds. *)
Definition fresh_page : page :=
  {| audioContext := None; console_errors := []; sources_started := [] |}.

Definition obliging_platform : platform :=
  {| new_AudioContext := inr suspended; resume := Resumed;
     start_source := None |}.

(** Two page states with the same console and the same started sources. *)
Definition same_output (pg pg' : page) : Prop :=
  console_errors pg' = console_errors pg /\
  sources_started pg' = sources_started pg.

(** The audio subsystem lets the body of [playPCMAudio] through: a
    context exists or can be made, it runs or can be resumed, and the
    node calls succeed. *)
Definition audio_ready (pf : platform) (pg : page) : Prop :=
  start_source pf = None /\
  match audioContext pg with
  | Some running => True
  | Some suspended => resume pf = Resumed
  | None =>
      match new_AudioContext pf with
      | inr running => True
      | inr suspended => resume pf = Resumed
      | inl _ => False
      end
  end.

(** ** Streaming playback: [LiveAudioPlayer]

    Times on the output clock are JavaScript numbers; the scheduler only
    compares two of them, adds a duration to the cursor and writes the
    literal [0].  The player is stated over any carrier with these
    operations, so nothing below depends on how binary64 addition
    rounds.  [buffer_duration n] is [AudioBuffer.duration] for a buffer
    of [n] frames at 24000 Hz, as the platform computes it. *)

Class OutputClock (time : Type) : Type := {
  time_zero : time;
  time_lt : time -> time -> bool;
  time_add : time -> time -> time;
  buffer_duration : nat -> time
}.

(** A source node is an object: [node_id] is its identity, the one
    [s !== source] compares. *)
Record AudioBufferSourceNode : Type := {
  node_id : nat;
  node_buffer : list JS.number
}.

Definition same_node (a b : AudioBufferSourceNode) : bool :=
  Nat.eqb (node_id a) (node_id b).

(** Lines 141-154: decode the chunk into the channel data of a buffer. *)
Definition decode_chunk (base64Audio : Base64.js_string)
  : exn + list JS.number :=
  match base64ToUint8Array base64Audio with
  | inl e => inl e
  | inr data =>
      match Int16Array_of_buffer data with
      | inl e => inl e
      | inr dataInt16 =>
          match createBuffer (length dataInt16) with
          | inl e => inl e
          | inr _ => inr (channelData_of dataInt16)
          end
      end
  end.

Section LiveAudioPlayer.

Context {time : Type} `{OutputClock time}.

(** The player's [AudioContext]: its state, how many nodes it created,
    and the [start(when)] and [stop()] calls it received, in order. *)
Record AudioContext : Type := {
  ctx_state : AudioContextState;
  ctx_created : nat;
  ctx_started : list (AudioBufferSourceNode * time);
  ctx_stopped : list AudioBufferSourceNode
}.

Record LiveAudioPlayer : Type := {
  context : AudioContext;
  nextStartTime : time;
  queue : list AudioBufferSourceNode
}.

(** [new LiveAudioPlayer()]; the state a new context starts in is the
    platform's choice. *)
Definition new_LiveAudioPlayer (st : AudioContextState) : LiveAudioPlayer :=
  {| context := {| ctx_state := st; ctx_created := 0;
                   ctx_started := []; ctx_stopped := [] |};
     nextStartTime := time_zero;
     queue := [] |}.

Definition with_context (p : LiveAudioPlayer) (c : AudioContext)
  : LiveAudioPlayer :=
  {| context := c; nextStartTime := nextStartTime p; queue := queue p |}.

(** [if (this.context.state === 'suspended') await this.context.resume()];
    the step describes the call from the point the promise fulfilled. *)
Definition resumed (c : AudioContext) : AudioContext :=
  {| ctx_state := running; ctx_created := ctx_created c;
     ctx_started := ctx_started c; ctx_stopped := ctx_stopped c |}.

(** What a call of [playChunk] did. *)
Inductive chunk_outcome : Type :=
| Threw (e : exn)
| Scheduled (source : AudioBufferSourceNode) (when : time).

(** [playChunk(base64Audio)], with [currentTime] the value read from
    [this.context.currentTime] on line 161.  A chunk that does not
    decode throws before the cursor is read.  The node calls
    ([createBufferSource], [connect], [start]) are taken to succeed:
    [start(when)] only refuses a negative or non-finite [when], and the
    cursor is [0], a clock value, or one of these plus durations. *)
Definition playChunk (currentTime : time) (base64Audio : Base64.js_string)
    (p : LiveAudioPlayer) : LiveAudioPlayer * chunk_outcome :=
  let c := resumed (context p) in
  match decode_chunk base64Audio with
  | inl e => (with_context p c, Threw e)
  | inr channelData =>
      let source := {| node_id := ctx_created c;
                       node_buffer := channelData |} in
      let start :=
        if time_lt (nextStartTime p) currentTime then currentTime
        else nextStartTime p in
      let c' := {| ctx_state := running;
                   ctx_created := S (ctx_created c);
                   ctx_started := ctx_started c ++ [(source, start)];
                   ctx_stopped := ctx_stopped c |} in
      ({| context := c';
          nextStartTime :=
            time_add start (buffer_duration (length channelData));
          queue := queue p ++ [source] |},
       Scheduled source start)
  end.

(** [source.onended]: [this.queue = this.queue.filter(s => s !== source)]. *)
Definition onended (source : AudioBufferSourceNode) (p : LiveAudioPlayer)
  : LiveAudioPlayer :=
  {| context := context p;
     nextStartTime := nextStartTime p;
     queue := filter (fun s => same_node s source = false) (queue p) |}.

Definition was_started (c : AudioContext) (s : AudioBufferSourceNode)
  : bool :=
  existsb (fun e => same_node (fst e) s) (ctx_started c).

(** [this.queue.forEach(source => source.stop())]: [stop()] on a node
    that was never started throws and ends the loop. *)
Fixpoint stop_sources (c : AudioContext) (q : list AudioBufferSourceNode)
  : AudioContext * option exn :=
  match q with
  | [] => (c, None)
  | source :: rest =>
      if was_started c source then
        stop_sources
          {| ctx_state := ctx_state c; ctx_created := ctx_created c;
             ctx_started := ctx_started c;
             ctx_stopped := ctx_stopped c ++ [source] |} rest
      else (c, Some InvalidStateError)
  end.

(** [stop()]. *)
Definition stop (p : LiveAudioPlayer) : LiveAudioPlayer * option exn :=
  match stop_sources (context p) (queue p) with
  | (c, Some e) => (with_context p c, Some e)
  | (c, None) =>
      ({| context := c; nextStartTime := time_zero; queue := [] |}, None)
  end.

(** The events a player meets, and the states it can be in. *)
Inductive event : Type :=
| PlayChunk (currentTime : time) (base64Audio : Base64.js_string)
| Ended (source : AudioBufferSourceNode)
| Stop.

Definition step (p : LiveAudioPlayer) (ev : event) : LiveAudioPlayer :=
  match ev with
  | PlayChunk currentTime base64Audio =>
      fst (playChunk currentTime base64Audio p)
  | Ended source => onended source p
  | Stop => fst (stop p)
  end.

Definition run (p : LiveAudioPlayer) (evs : list event) : LiveAudioPlayer :=
  fold_left step evs p.

Definition reachable (p : LiveAudioPlayer) : Prop :=
  exists st evs, p = run (new_LiveAudioPlayer st) evs.

(** A playback session: chunks enqueued one after the other, each with
    the clock value read when it is scheduled; sources may end in
    between, [stop()] is not called. *)
Inductive session_event : Type :=
| Enqueue (currentTime : time) (base64Audio : Base64.js_string)
| SourceEnded (source : AudioBufferSourceNode).

Definition event_of (ev : session_event) : event :=
  match ev with
  | Enqueue t b => PlayChunk t b
  | SourceEnded s => Ended s
  end.

(** The scheduling calls of a session, in order: source and start. *)
Fixpoint session_schedule (p : LiveAudioPlayer) (evs : list session_event)
  : list (AudioBufferSourceNode * time) :=
  match evs with
  | [] => []
  | ev :: rest =>
      match ev with
      | Enqueue t b =>
          match playChunk t b p with
          | (p', Scheduled s w) => (s, w) :: session_schedule p' rest
          | (p', Threw _) => session_schedule p' rest
          end
      | SourceEnded s => session_schedule (onended s p) rest
      end
  end.

(** Every chunk of the session is well formed and finds the cursor at
    or ahead of the clock. *)
Fixpoint keeps_pace (p : LiveAudioPlayer) (evs : list session_event)
  : Prop :=
  match evs with
  | [] => True
  | ev :: rest =>
      match ev with
      | Enqueue t b =>
          time_lt (nextStartTime p) t = false /\
          (exists d, decode_chunk b = inr d) /\
          keeps_pace (fst (playChunk t b p)) rest
      | SourceEnded s => keeps_pace (onended s p) rest
      end
  end.

(** The chunks of a session, in enqueue order. *)
Fixpoint session_chunks (evs : list session_event)
  : list Base64.js_string :=
  match evs with
  | [] => []
  | Enqueue _ b :: rest => b :: session_chunks rest
  | SourceEnded _ :: rest => session_chunks rest
  end.

Definition source_duration (s : AudioBufferSourceNode) : time :=
  buffer_duration (length (node_buffer s)).

(** [offset], [offset + d1], [offset + d1 + d2], ... *)
Fixpoint start_times (offset : time) (durations : list time) : list time :=
  match durations with
  | [] => []
  | d :: rest => offset :: start_times (time_add offset d) rest
  end.

(** Every queued source has been started. *)
Definition queue_started (p : LiveAudioPlayer) : Prop :=
  Forall (fun s => was_started (context p) s = true) (queue p).

(** The bookkeeping of nodes: the [k]-th node created is the [k]-th
    node started, and the nodes that are queued or were stopped are
    distinct nodes created by this player. *)
Definition nodes_accounted (p : LiveAudioPlayer) : Prop :=
  map (fun e => node_id (fst e)) (ctx_started (context p))
  = seq 0 (ctx_created (context p)) /\
  NoDup (map node_id (ctx_stopped (context p) ++ queue p)) /\
  Forall (fun s => (node_id s < ctx_created (context p))%nat)
         (ctx_stopped (context p) ++ queue p).

(** Two calls of [playChunk] behave identically: both throw the same
    error, or both schedule the same buffer at the same time; they
    leave the same cursor and the same buffers queued, in a running
    context.  (The nodes themselves are distinct objects.) *)
Definition same_behaviour
    (r1 r2 : LiveAudioPlayer * chunk_outcome) : Prop :=
  match snd r1, snd r2 with
  | Threw e1, Threw e2 => e1 = e2
  | Scheduled s1 w1, Scheduled s2 w2 =>
      node_buffer s1 = node_buffer s2 /\ w1 = w2
  | _, _ => False
  end /\
  nextStartTime (fst r1) = nextStartTime (fst r2) /\
  map node_buffer (queue (fst r1)) = map node_buffer (queue (fst r2)) /\
  ctx_state (context (fst r1)) = ctx_state (context (fst r2)).

End LiveAudioPlayer.

Arguments AudioContext time : clear implicits.
Arguments LiveAudioPlayer time : clear implicits.
Arguments chunk_outcome time : clear implicits.
Arguments event time : clear implicits.
Arguments session_event time : clear implicits.

(** ** The same code on binary64 numbers

    The browser's numbers are binary64 floats.  [clock] is its output
    clock, with [AudioBuffer.duration = length / sampleRate];
    [encode_sample_binary64] is the loop body of [float32ToInt16PCM] on
    the primitive binary64 operations, to be compared with the exact
    model on sample points. *)
Module Binary64.

Definition duration (frameCount : nat) : float :=
  PrimFloat.div
    (PrimFloat.of_uint63 (Uint63.of_Z (Z.of_nat frameCount)))
    24000%float.

#[export] Instance clock : OutputClock float := {|
  time_zero := 0%float;
  time_lt := PrimFloat.ltb;
  time_add := PrimFloat.add;
  buffer_duration := duration
|}.

(** The number a float denotes. *)
Definition float_value (x : float) : JS.number :=
  match Prim2SF x with
  | S754_zero _ => JS.Finite 0
  | S754_infinity s => JS.Infinity s
  | S754_nan => JS.NaN
  | S754_finite s m e =>
      JS.Finite (inject_Z (if s then Z.neg m else Z.pos m) * Qpower 2 e)
  end.

Definition Math_min (a b : float) : float :=
  if (PrimFloat.is_nan a || PrimFloat.is_nan b)%bool then nan
  else if PrimFloat.ltb b a then b else a.

Definition Math_max (a b : float) : float :=
  if (PrimFloat.is_nan a || PrimFloat.is_nan b)%bool then nan
  else if PrimFloat.ltb a b then b else a.

Definition encode_sample_binary64 (x : float) : Z :=
  let s := Math_max (-1)%float (Math_min 1%float x) in
  JS.ToInt16
    (float_value
       (if PrimFloat.ltb s 0%float then PrimFloat.mul s 32768%float
        else PrimFloat.mul s 32767%float)).

(** ["AAAAAAAA"]: six zero bytes, three frames of silence. *)
Definition three_frames : Base64.js_string :=
  [65; 65; 65; 65; 65; 65; 65; 65]%N.

Definition silence : AudioBufferSourceNode :=
  {| node_id := 0; node_buffer := channelData_of [0; 0; 0] |}.

(** A session of three chunks; the first source ends before the third
    chunk arrives. *)
Definition paced_session : list (session_event float) :=
  [Enqueue 0%float three_frames;
   Enqueue 0x1p-14%float three_frames;
   SourceEnded silence;
   Enqueue 0x1p-12%float three_frames].

(** Two chunks, the second one second after the first. *)
Definition two_chunks : list (event float) :=
  [PlayChunk 0%float three_frames; PlayChunk 1%float three_frames].

(** Two chunks, the second enqueued one second after the first: it
    finds the cursor behind the clock. *)
Definition late_session : list (session_event float) :=
  [Enqueue 0%float three_frames; Enqueue 1%float three_frames].

(** ["!!"], which is not base64. *)
Definition not_base64 : Base64.js_string := [33; 33]%N.

(** The integer a float without fractional part denotes. *)
Definition integer_of_float (x : float) : Number.number :=
  match Prim2SF x with
  | S754_zero _ => Number.Int 0
  | S754_infinity s => Number.Infinity s
  | S754_nan => Number.NaN
  | S754_finite s m e =>
      Number.Int (Z.shiftl (if s then Z.neg m else Z.pos m) e)
  end.

(** Pairs of integers to add: around [2^53] and [2^54], where sums are
    rounded and ties met, at the end of the range, and with an
    infinity or [NaN]. *)
Definition integer_pairs : list (float * float) :=
  [(10, 4); (0, 0); (-3, 3);
   (9007199254740991, 1); (9007199254740991, 2);
   (9007199254740991, 9007199254740991);
   (4503599627370497, 4503599627370496);
   (0x1p53, 1); (0x1p53, 2); (0x1p53, 3); (0x1p53, -1);
   (-0x1p53, -1); (-0x1p53, -3);
   (0x1p54, 1); (0x1p54, 2); (0x1p54, 3); (0x1p54, 5); (0x1p54, 6);
   (0x1p54, 7);
   (0x1p60, 0x1p7); (0x1p60, 0x1.8p7); (0x1p60, 0x1p8); (0x1p60, 0x1.8p8);
   (0x1.0000000000001p60, 0x1p7); (-0x1.0000000000001p60, -0x1p7);
   (0x1.0000000000001p60, -0x1p7); (0x1p60, -0x1p7); (0x1p60, -0x1p6);
   (0x1p60, -0x1.8p6); (0x1p60, -0x1.8p7);
   (0x1p1023, 0x1p1023); (-0x1p1023, -0x1p1023);
   (0x1.fffffffffffffp1023, 0x1p969); (0x1.fffffffffffffp1023, 0x1p970);
   (0x1.fffffffffffffp1023, 0x1.fp969);
   (0x1.fffffffffffffp1023, 0x1.000001p970);
   (infinity, 1); (1, infinity); (neg_infinity, 0x1p1023);
   (1, neg_infinity); (infinity, infinity); (neg_infinity, neg_infinity);
   (infinity, neg_infinity); (neg_infinity, infinity);
   (nan, 1); (1, nan); (nan, infinity); (nan, nan)]%float.

End Binary64.

(** ** The progress store: [DatabaseService.addSession]

    The IndexedDB database has two object stores: [users], keyed by the
    record's [username], and [sessions], keyed by the record's [id] with a
    key generator ([autoIncrement]).  [addSession] runs in one read-write
    transaction over both.  Stars and streaks are numbers without
    fractional part, added as numbers are ([Number.add]); keys and time
    values are integers. *)

Module Database.

Inductive FontType : Type := LEXEND | COMIC | OPEN_SANS.

Record UserSettings : Type := {
  font : FontType;
  fontSize : Z;
  letterSpacing : Z;
  lineHeight : Z;
  highContrast : bool;
  readingRuler : bool;
  rulerColor : string
}.

Inductive Difficulty : Type := Beginner | Intermediate | Advanced.

Record Story : Type := {
  story_id : string;
  title : string;
  content : string;
  difficulty : Difficulty;
  tags : list string;
  imageUrl : option string
}.

Record ReadingSession : Type := {
  id : option Z;
  date : string;
  timestamp : option Z;
  wordsRead : Z;
  accuracy : Z;
  stars : Number.number;
  storyId : option string;
  session_username : option string;
  missedWords : option (list string)
}.

Record User : Type := {
  username : string;
  password : option string;
  avatar : string;
  totalStars : Number.number;
  streak : Number.number;
  lastReadDate : option string;
  sessions : list ReadingSession;
  customStories : list Story;
  settings : UserSettings
}.

Record IDBDatabase : Type := {
  users : gmap string User;
  sessions_store : gmap Z ReadingSession;
  sessions_keygen : Z
}.

(** What [Date] answers during one call: the time values that the
    call's reads of the clock return ([Date.now()] and [new Date()], in
    the order in which the call makes them), and the local date of a
    time value, [new Date(t).toDateString()]. *)
Record wall_clock : Type := {
  Date_reads : nat -> Z;
  toDateString : Z -> string
}.

(** A time value is an integer of at most [8.64e15] in absolute value,
    below [2^53]: on time values, adding and subtracting a day are
    exact. *)
Definition time_values (ck : wall_clock) : Prop :=
  forall i, Z.abs (Date_reads ck i) <= 8640000000000000.

(** The three reads of [addSession]: [Date.now()] for the record's
    [timestamp], then, in the [onsuccess] handler,
    [new Date().toDateString()] and
    [new Date(Date.now() - 86400000).toDateString()], the date of the
    instant 24 hours before the read. *)
Definition Date_now (ck : wall_clock) : Z := Date_reads ck 0%nat.

Definition today_string (ck : wall_clock) : string :=
  toDateString ck (Date_reads ck 1%nat).

Definition yesterday_string (ck : wall_clock) : string :=
  toDateString ck (Date_reads ck 2%nat - 86400000).

Inductive promise : Type := Resolved | Rejected.

(** [{ ...session, username, timestamp: Date.now() }]. *)
Definition session_record (session : ReadingSession) (name : string)
    (ck : wall_clock) : ReadingSession :=
  {| id := id session; date := date session;
     timestamp := Some (Date_now ck);
     wordsRead := wordsRead session; accuracy := accuracy session;
     stars := stars session; storyId := storyId session;
     session_username := Some name;
     missedWords := missedWords session |}.

Definition with_id (r : ReadingSession) (k : Z) : ReadingSession :=
  {| id := Some k; date := date r; timestamp := timestamp r;
     wordsRead := wordsRead r; accuracy := accuracy r; stars := stars r;
     storyId := storyId r; session_username := session_username r;
     missedWords := missedWords r |}.

(** The last key a key generator gives. *)
Definition generator_limit : Z := 2 ^ 53.

(** [sessionStore.add(record)].  A record that carries an [id] is
    stored under it, and the generator is moved past that key, or past
    [2^53] for a key beyond.  A record that carries none is given the
    generator's current number, and the generator moves on by one; a
    current number above [2^53] is not given.  A key that is not given,
    or is already present, is a [ConstraintError] ([None]). *)
Definition sessions_add (db : IDBDatabase) (r : ReadingSession)
  : option IDBDatabase :=
  match id r with
  | Some k =>
      match sessions_store db !! k with
      | Some _ => None
      | None =>
          Some {| users := users db;
                  sessions_store := <[k := with_id r k]> (sessions_store db);
                  sessions_keygen :=
                    Z.max (sessions_keygen db)
                          (Z.min k generator_limit + 1) |}
      end
  | None =>
      let k := sessions_keygen db in
      if generator_limit <? k then None
      else
        match sessions_store db !! k with
        | Some _ => None
        | None =>
            Some {| users := users db;
                    sessions_store :=
                      <[k := with_id r k]> (sessions_store db);
                    sessions_keygen := k + 1 |}
        end
  end.

(** The streak logic of the [onsuccess] handler. *)
Definition next_streak (user : User) (ck : wall_clock) : Number.number :=
  let today := today_string ck in
  let lastRead := lastReadDate user in
  if decide (lastRead = Some today) then streak user
  else if decide (lastRead = Some (yesterday_string ck))
       then Number.add (streak user) (Number.Int 1)
       else Number.Int 1.

Definition update_user (user : User) (session : ReadingSession)
    (ck : wall_clock) : User :=
  {| username := username user; password := password user;
     avatar := avatar user;
     totalStars := Number.add (totalStars user) (stars session);
     streak := next_streak user ck;
     lastReadDate := Some (today_string ck);
     sessions := sessions user; customStories := customStories user;
     settings := settings user |}.

(** [userStore.put(user)]: stored under the record's own [username]. *)
Definition users_put (db : IDBDatabase) (user : User) : IDBDatabase :=
  {| users := <[username user := user]> (users db);
     sessions_store := sessions_store db;
     sessions_keygen := sessions_keygen db |}.

(** [addSession(username, session)].  A failed request aborts the
    transaction: the promise is rejected and nothing is written, the
    generator included. *)
Definition addSession (name : string) (session : ReadingSession)
    (ck : wall_clock) (db : IDBDatabase) : promise * IDBDatabase :=
  match sessions_add db (session_record session name ck) with
  | None => (Rejected, db)
  | Some db1 =>
      match users db1 !! name with
      | Some user => (Resolved, users_put db1 (update_user user session ck))
      | None => (Resolved, db1)
      end
  end.

(** The stores' own invariants: a user record sits under its
    [username], and no key that the generator can still give is
    taken. *)
Definition well_formed (db : IDBDatabase) : Prop :=
  (forall k u, users db !! k = Some u -> username u = k) /\
  (forall k, sessions_keygen db <= k <= generator_limit ->
     sessions_store db !! k = None).

(** The store accepts the session: the key it brings is not taken, or
    it brings none and the generator can still give one. *)
Definition session_key_free (db : IDBDatabase) (session : ReadingSession)
  : Prop :=
  match id session with
  | Some k => sessions_store db !! k = None
  | None => sessions_keygen db <= generator_limit
  end.

(** A sample database: one user, one stored session, and two sessions
    to add, the first of which carries the [id] of the stored one. *)
Definition settings0 : UserSettings :=
  {| font := LEXEND; fontSize := 2; letterSpacing := 1; lineHeight := 2;
     highContrast := false; readingRuler := false; rulerColor := "#fde047" |}.

Definition amy : User :=
  {| username := "amy"; password := None; avatar := "A";
     totalStars := Number.Int 10; streak := Number.Int 2;
     lastReadDate := Some "Mon Nov 02 2026";
     sessions := []; customStories := []; settings := settings0 |}.

Definition session1 : ReadingSession :=
  {| id := Some 1; date := "Mon"; timestamp := Some 1793600000000;
     wordsRead := 40; accuracy := 90; stars := Number.Int 3; storyId := None;
     session_username := Some "amy"; missedWords := Some [] |}.

Definition session2 : ReadingSession :=
  {| id := None; date := "Tue"; timestamp := None;
     wordsRead := 55; accuracy := 90; stars := Number.Int 4;
     storyId := Some "s1";
     session_username := None; missedWords := Some ["ship"] |}.

Definition db0 : IDBDatabase :=
  {| users := {[ "amy" := amy ]};
     sessions_store := {[ 1 := session1 ]};
     sessions_keygen := 2 |}.

(** Sample clocks.  [sample_date] names the days the examples meet by
    their number since 1 January 1970; [utc] is [toDateString] where
    local time is UTC, and [new_york] where it is five hours behind UTC
    until 8 March 2026, 07:00 UTC, and four hours behind from then
    on. *)
Definition sample_date (day : Z) : string :=
  match day with
  | 20519 => "Sat Mar 07 2026"
  | 20520 => "Sun Mar 08 2026"
  | 20521 => "Mon Mar 09 2026"
  | 20759 => "Mon Nov 02 2026"
  | 20760 => "Tue Nov 03 2026"
  | 20761 => "Wed Nov 04 2026"
  | _ => "Thu Jan 01 1970"
  end.

Definition utc (t : Z) : string := sample_date (t / 86400000).

Definition new_york (t : Z) : string :=
  let offset := if t <? 1772953200000 then 18000000 else 14400000 in
  sample_date ((t - offset) / 86400000).

Definition tuesday : wall_clock :=
  {| Date_reads := fun _ => 1793700000000; toDateString := utc |}.

Definition wednesday : wall_clock :=
  {| Date_reads := fun _ => 1793786400000; toDateString := utc |}.

(** Monday 9 March 2026, 00:30 in New York, the night after the clocks
    went forward, and a user who last read on the Sunday. *)
Definition monday_in_new_york : wall_clock :=
  {| Date_reads := fun _ => 1773030600000; toDateString := new_york |}.

Definition amy_on_sunday : User :=
  {| username := "amy"; password := None; avatar := "A";
     totalStars := Number.Int 10; streak := Number.Int 2;
     lastReadDate := Some "Sun Mar 08 2026";
     sessions := []; customStories := []; settings := settings0 |}.

(** A total at [2^53], from where one more star is lost, and a
    database whose generator has given its last key. *)
Definition amy_with_many_stars : User :=
  {| username := "amy"; password := None; avatar := "A";
     totalStars := Number.Int (2 ^ 53); streak := Number.Int 2;
     lastReadDate := Some "Mon Nov 02 2026";
     sessions := []; customStories := []; settings := settings0 |}.

Definition db_exhausted : IDBDatabase :=
  {| users := {[ "amy" := amy ]};
     sessions_store := {[ 1 := session1 ]};
     sessions_keygen := 2 ^ 53 + 1 |}.

End Database.

(** ** The other requests of [DatabaseService] *)

Module DatabaseService.
Import Database.

(** The database [init] creates on first use: both stores empty, the
    key generator of [sessions] at [1]. *)
Definition new_database : IDBDatabase :=
  {| users := ∅; sessions_store := ∅; sessions_keygen := 1 |}.

(** [getUser(username)]: [undefined] ([None]) when there is no record. *)
Definition getUser (name : string) (db : IDBDatabase) : option User :=
  users db !! name.

(** [createUser(user)]: [store.add] refuses a key that is present. *)
Definition createUser (user : User) (db : IDBDatabase)
  : promise * IDBDatabase :=
  match users db !! username user with
  | Some _ => (Rejected, db)
  | None => (Resolved, users_put db user)
  end.

(** [updateUser(user)]: [store.put] inserts or overwrites. *)
Definition updateUser (user : User) (db : IDBDatabase)
  : promise * IDBDatabase :=
  (Resolved, users_put db user).

(** The keys of the [sessions] store, ascending: the order in which a
    store is read, and an index among records of equal index key. *)
Definition session_keys (db : IDBDatabase) : list Z :=
  merge_sort Z.le (map fst (map_to_list (sessions_store db))).

(** [getUserSessions(username)]: [index('username').getAll(username)]. *)
Definition getUserSessions (name : string) (db : IDBDatabase)
  : list ReadingSession :=
  filter (fun r => session_username r = Some name)
         (omap (fun k => sessions_store db !! k) (session_keys db)).

(** Every key of the store is below the generator's current number, as
    it is while no session was added with an [id] above [2^53]. *)
Definition keys_below_generator (db : IDBDatabase) : Prop :=
  forall k, sessions_keygen db <= k -> sessions_store db !! k = None.

(** The stars of a session as an integer, and those of the sessions
    stored for a user: their sum, and the sum of their absolute
    values. *)
Definition integer_stars (r : ReadingSession) : Z :=
  match stars r with
  | Number.Int n => n
  | _ => 0
  end.

Definition stars_of_sessions (name : string) (db : IDBDatabase) : Z :=
  foldr (fun r acc => integer_stars r + acc) 0 (getUserSessions name db).



End DatabaseService.

(** ** The client of the store: [MockApiClient]

    The client keeps one more piece of state, the access token in
    [localStorage].  [hashPassword] (the SHA-256 digest of the password,
    in hexadecimal, which [crypto.subtle] is taken to deliver) and
    [JSON.stringify] are the browser's: the client is stated over any
    two such functions.  Calls are made one after the other, each
    running to its end.  [getCurrentUser], which parses a token back
    with [JSON.parse], is not part of the model. *)

Module MockApiClient.
Import Database DatabaseService.

Definition DEFAULT_SETTINGS : UserSettings :=
  {| font := LEXEND; fontSize := 2; letterSpacing := 1; lineHeight := 2;
     highContrast := false; readingRuler := false; rulerColor := "#fef08a" |}.

(** What a rejected call was rejected with: one of the three [Error]s
    the client throws, the error of a refused store request, or an
    exception of the platform. *)
Inductive rejection : Type :=
| User_not_found
| Incorrect_password
| Username_already_taken
| RequestError
| Uncaught (e : exn).

Inductive outcome (A : Type) : Type :=
| Fulfilled (a : A)
| Failed (why : rejection).
Arguments Fulfilled {A} a.
Arguments Failed {A} why.

Record client : Type := {
  idb : IDBDatabase;
  access_token : option Base64.js_string
}.

Definition new_client : client :=
  {| idb := new_database; access_token := None |}.

Definition with_idb (c : client) (db : IDBDatabase) : client :=
  {| idb := db; access_token := access_token c |}.

(** The payload of a token: [{ sub, iat, exp }]. *)
Record token_payload : Type := {
  sub : string;
  iat : Z;
  exp : Z
}.

Class Browser : Type := {
  hashPassword : string -> string;
  JSON_stringify : token_payload -> Base64.js_string
}.

(** [user.settings = settings] and
    [user.customStories = [story, ...(user.customStories || [])]]. *)
Definition with_settings (user : User) (s : UserSettings) : User :=
  {| username := username user; password := password user;
     avatar := avatar user; totalStars := totalStars user;
     streak := streak user; lastReadDate := lastReadDate user;
     sessions := sessions user; customStories := customStories user;
     settings := s |}.

Definition with_story (user : User) (story : Story) : User :=
  {| username := username user; password := password user;
     avatar := avatar user; totalStars := totalStars user;
     streak := streak user; lastReadDate := lastReadDate user;
     sessions := sessions user;
     customStories := story :: customStories user;
     settings := settings user |}.

Section Client.

Context `{Browser}.

(** [generateToken(username)], with its two reads of the clock:
    [btoa] throws on a text that holds a code unit above [0xFF]. *)
Definition generateToken (name : string) (ck : wall_clock)
  : exn + Base64.js_string :=
  let payload := {| sub := name; iat := Date_reads ck 0%nat;
                    exp := Date_reads ck 1%nat + 24 * 60 * 60 * 1000 |} in
  Base64.btoa (JSON_stringify payload).

(** [const token = generateToken(...);
    localStorage.setItem(TOKEN_KEY, token); return user]. *)
Definition issue_token (user : User) (name : string) (ck : wall_clock)
    (c : client) : outcome User * client :=
  match generateToken name ck with
  | inl e => (Failed (Uncaught e), c)
  | inr token =>
      (Fulfilled user, {| idb := idb c; access_token := Some token |})
  end.

Definition login (name pw : string) (ck : wall_clock) (c : client)
  : outcome User * client :=
  match getUser name (idb c) with
  | None => (Failed User_not_found, c)
  | Some user =>
      let hashedInput := hashPassword pw in
      if decide (password user = Some hashedInput)
      then issue_token user (username user) ck c
      else (Failed Incorrect_password, c)
  end.

(** The record [register] builds. *)
Definition newUser (name pw avatar0 : string) : User :=
  {| username := name; password := Some (hashPassword pw);
     avatar := avatar0;
     totalStars := Number.Int 0; streak := Number.Int 0;
     lastReadDate := Some EmptyString;
     sessions := []; customStories := [];
     settings := DEFAULT_SETTINGS |}.

Definition register (name pw avatar0 : string) (ck : wall_clock) (c : client)
  : outcome User * client :=
  match getUser name (idb c) with
  | Some _ => (Failed Username_already_taken, c)
  | None =>
      match createUser (newUser name pw avatar0) (idb c) with
      | (Rejected, db) => (Failed RequestError, with_idb c db)
      | (Resolved, db) =>
          issue_token (newUser name pw avatar0) name ck (with_idb c db)
      end
  end.

Definition updateSettings (name : string) (s : UserSettings) (c : client)
  : client :=
  match getUser name (idb c) with
  | Some user => with_idb c (snd (updateUser (with_settings user s) (idb c)))
  | None => c
  end.

(** [addSession] and [getSessions] only delegate to the store. *)
Definition addSession (name : string) (session : ReadingSession)
    (ck : wall_clock) (c : client) : promise * client :=
  let r := Database.addSession name session ck (idb c) in
  (fst r, with_idb c (snd r)).

Definition getSessions (name : string) (c : client) : list ReadingSession :=
  getUserSessions name (idb c).

Definition addStory (name : string) (story : Story) (c : client) : client :=
  match getUser name (idb c) with
  | Some user => with_idb c (snd (updateUser (with_story user story) (idb c)))
  | None => c
  end.

(** [AuthService.logout]: [localStorage.removeItem(TOKEN_KEY)]. *)
Definition logout (c : client) : client :=
  {| idb := idb c; access_token := None |}.

(** The calls an application makes, and the client after a sequence of
    them. *)
Inductive call : Type :=
| Login (name pw : string) (ck : wall_clock)
| Register (name pw avatar0 : string) (ck : wall_clock)
| UpdateSettings (name : string) (s : UserSettings)
| AddSession (name : string) (session : ReadingSession) (ck : wall_clock)
| AddStory (name : string) (story : Story)
| Logout.

Definition perform (c : client) (x : call) : client :=
  match x with
  | Login name pw ck => snd (login name pw ck c)
  | Register name pw avatar0 ck => snd (register name pw avatar0 ck c)
  | UpdateSettings name s => updateSettings name s c
  | AddSession name session ck => snd (addSession name session ck c)
  | AddStory name story => addStory name story c
  | Logout => logout c
  end.

Definition perform_all (c : client) (xs : list call) : client :=
  fold_left perform xs c.



End Client.

(** Stand-ins for the two functions of the browser, a sequence of
    calls and a client over the sample database, for the examples. *)
Module Samples.

#[export] Instance sample_browser : Browser := {|
  hashPassword := String.append "sha256:";
  JSON_stringify p :=
    map (fun a => N.of_nat (Ascii.nat_of_ascii a))
        (String.list_ascii_of_string (sub p))
|}.

Definition sample_calls : list call :=
  [Register "amy" "secret" "A" tuesday;
   AddSession "amy" session2 tuesday;
   UpdateSettings "amy" settings0;
   AddSession "amy" session2 wednesday].



End Samples.

End MockApiClient.

(** ** The aggregates of the backend route [POST /api/sessions] *)

Module Server.
Import Database.

(** [newStars], [newStreak] and [today], as the route computes them
    from the [users] row and the request body. *)
Definition session_aggregates (user : User) (s : ReadingSession)
    (ck : wall_clock) : Number.number * Number.number * string :=
  let newStars := Number.add (totalStars user) (stars s) in
  let newStreak := streak user in
  let today := today_string ck in
  let newStreak :=
    if decide (lastReadDate user <> Some today) then
      let yesterday := yesterday_string ck in
      if decide (lastReadDate user = Some yesterday)
      then Number.add newStreak (Number.Int 1)
      else Number.Int 1
    else newStreak in
  (newStars, newStreak, today).

End Server.

(** ** The learner's history in a story request

    [handleCreateStory] collects the missed words of the user's
    sessions and keeps the last 20 distinct ones; [generateStory] names
    the first 8 of these in its prompt. *)

Module AdaptiveStory.
Import Database.

(** [sessions.forEach(s => { if (s.missedWords)
    allMissedWords.push(...s.missedWords) })]. *)
Definition allMissedWords (sessions : list ReadingSession) : list string :=
  flat_map (fun s => default [] (missedWords s)) sessions.

(** [Array.from(new Set(words))]: each word once, in the order of first
    appearance. *)
Definition Set_add (seen : list string) (w : string) : list string :=
  if decide (w ∈ seen) then seen else seen ++ [w].

Definition Array_from_Set (words : list string) : list string :=
  fold_left Set_add words [].

(** [array.slice(-n)] and [array.slice(0, n)]. *)
Definition slice_last {A} (n : nat) (l : list A) : list A :=
  drop (length l - n) l.

Definition slice_first {A} (n : nat) (l : list A) : list A := take n l.

Definition uniqueMissed (sessions : list ReadingSession) : list string :=
  slice_last 20 (Array_from_Set (allMissedWords sessions)).

(** [generateStory]: the words named in the adaptive instruction; there
    is no such instruction ([None]) when the profile is empty. *)
Definition recentMisses (profile : list string) : option (list string) :=
  match profile with
  | [] => None
  | _ :: _ => Some (slice_first 8 profile)
  end.

End AdaptiveStory.

(** ** A recording on its way to the analysis

    [stopRecording] wraps the recorded bytes in a [Blob] of type
    [audio/wav], [blobToBase64] reads it as a data URL, and
    [analyzeReading] strips the prefix of that URL again. *)

Module Recording.
Import Base64.
Local Open Scope N_scope.

Definition comma : N := 44.

(** ["data:audio/wav;base64,"]. *)
Definition data_url_prefix : js_string :=
  [100; 97; 116; 97; 58; 97; 117; 100; 105; 111; 47; 119; 97; 118; 59;
   98; 97; 115; 101; 54; 52; 44].

(** [reader.readAsDataURL(blob)] for a blob of type [audio/wav]: the
    prefix, then the bytes in base64. *)
Definition blobToBase64 (blob : list byte) : exn + js_string :=
  match btoa (map String_fromCharCode blob) with
  | inl e => inl e
  | inr text => inr (data_url_prefix ++ text)
  end.

(** [s.split(',')]: the fields between the commas. *)
Fixpoint split_comma (s : js_string) : list js_string :=
  match s with
  | [] => [[]]
  | c :: rest =>
      if c =? comma then [] :: split_comma rest
      else match split_comma rest with
           | field :: fields => (c :: field) :: fields
           | [] => [[c]]
           end
  end.

(** [audioBase64.split(',')[1] || audioBase64]: the second field,
    unless there is none or it is empty. *)
Definition base64Data (audioBase64 : js_string) : js_string :=
  match split_comma audioBase64 !! 1%nat with
  | Some (c :: field) => c :: field
  | _ => audioBase64
  end.

End Recording.

(** ** The encoder as the specification words it

    Clamp to [[-1, 1]], scale by [32768] below zero and by [32767]
    otherwise, truncate toward zero. *)

Definition spec_clamp (x : JS.number) : Q :=
  match x with
  | JS.NaN => 0
  | JS.Infinity true => -1
  | JS.Infinity false => 1
  | JS.Finite q =>
      if Qlt_le_dec (-1) q then (if Qlt_le_dec q 1 then q else 1) else -1
  end.

Definition spec_scale (c : Q) : Q :=
  if Qlt_le_dec c 0 then c * 32768 else c * 32767.

Definition spec_encode (x : JS.number) : Z :=
  JS.truncate (spec_scale (spec_clamp x)).

(** Decode then re-encode, and encode then decode. *)
Definition reencode (data : list byte) : exn + list Z :=
  match decode_pcm data with
  | inl e => inl e
  | inr channelData => Int16Array_of_buffer (float32ToInt16PCM channelData)
  end.

Definition encode_decode_sample (x : JS.number) : JS.number :=
  JS.div_32768 (encode_sample x).

(** Finite binary32 and binary64 values: [m * 2^e] with a 24-bit
    (53-bit) significand and the format's exponent range. *)
Definition representable (bits emin emax : Z) (q : Q) : Prop :=
  exists m e : Z,
    Z.abs m < 2 ^ bits /\ emin <= e <= emax /\
    q == inject_Z m * Qpower 2 e.

Definition binary32 : Q -> Prop := representable 24 (-149) 104.
Definition binary64 : Q -> Prop := representable 53 (-1074) 971.

(* ===================================================================== *)
(** * Part II: properties *)
(* ===================================================================== *)

(** ** Truncation *)

Lemma quot_bounds n d :
  0 < d ->
  (0 <= n -> d * (n ÷ d) <= n < d * (n ÷ d) + d) /\
  (n <= 0 -> n <= d * (n ÷ d) /\ d * (n ÷ d) - d < n).
Proof.
  intros Hd. pose proof (Z.quot_rem' n d) as E. split; intros Hn.
  - pose proof (Z.rem_bound_pos n d Hn Hd). lia.
  - pose proof (Z.rem_bound_pos_neg n d Hd Hn). lia.
Qed.

Lemma truncate_nonneg (q : Q) :
  (0 <= q)%Q ->
  (inject_Z (JS.truncate q) <= q)%Q /\ (q < inject_Z (JS.truncate q) + 1)%Q.
Proof.
  destruct q as [n d]. unfold JS.truncate, Qle, Qlt. cbn.
  intros Hn. destruct (quot_bounds n (Z.pos d)) as [H _]; [lia|].
  specialize (H ltac:(lia)). split; nia.
Qed.

Lemma truncate_nonpos (q : Q) :
  (q <= 0)%Q ->
  (q <= inject_Z (JS.truncate q))%Q /\ (inject_Z (JS.truncate q) - 1 < q)%Q.
Proof.
  destruct q as [n d]. unfold JS.truncate, Qle, Qlt. cbn.
  intros Hn. destruct (quot_bounds n (Z.pos d)) as [_ H]; [lia|].
  specialize (H ltac:(lia)). split; nia.
Qed.

(** Truncation of a value within [lo .. hi] stays within [lo .. hi]. *)
Lemma truncate_range (q : Q) (lo hi : Z) :
  lo <= 0 <= hi -> (inject_Z lo <= q <= inject_Z hi)%Q ->
  lo <= JS.truncate q <= hi.
Proof.
  intros Hz [Hlo Hhi].
  destruct (Qlt_le_dec q 0) as [Hneg|Hpos].
  - destruct (truncate_nonpos q) as [H1 H2]; [lra|].
    assert (inject_Z (JS.truncate q) - 1 < 0)%Q as H3 by lra.
    assert (inject_Z lo - 1 < inject_Z (JS.truncate q))%Q as H4 by lra.
    revert H3 H4. unfold Qlt, Qminus, Qplus, Qopp, inject_Z. cbn. lia.
  - destruct (truncate_nonneg q Hpos) as [H1 H2].
    assert (inject_Z (JS.truncate q) <= inject_Z hi)%Q as H3 by lra.
    assert (0 < inject_Z (JS.truncate q) + 1)%Q as H4 by lra.
    revert H3 H4. unfold Qle, Qlt, Qplus, inject_Z. cbn. lia.
Qed.

Lemma ToInt16_in_range (q : Q) :
  -32768 <= JS.truncate q <= 32767 ->
  JS.ToInt16 (JS.Finite q) = JS.truncate q.
Proof.
  intros H. unfold JS.ToInt16. cbv zeta.
  destruct (Z.leb_spec 32768 (JS.truncate q mod 65536)) as [Hc|Hc].
  - assert (JS.truncate q < 0) as Hn.
    { destruct (Z_lt_le_dec (JS.truncate q) 0); [done|].
      rewrite Z.mod_small in Hc; lia. }
    replace (JS.truncate q) with (-1 * 65536 + (JS.truncate q + 65536)) at 1
      by lia.
    rewrite Z.add_comm, Z.mod_add by lia. rewrite Z.mod_small; lia.
  - destruct (Z_lt_le_dec (JS.truncate q) 0) as [Hn|Hn].
    + exfalso. revert Hc.
      replace (JS.truncate q) with (-1 * 65536 + (JS.truncate q + 65536)) at 1
        by lia.
      rewrite Z.add_comm, Z.mod_add by lia. rewrite Z.mod_small; lia.
    + rewrite Z.mod_small; lia.
Qed.

Lemma ToInt16_bounds (x : JS.number) : -32768 <= JS.ToInt16 x <= 32767.
Proof.
  destruct x as [| |q]; cbn -[Z.modulo]; try lia.
  pose proof (Z.mod_pos_bound (JS.truncate q) 65536 ltac:(lia)).
  destruct (Z.leb_spec 32768 (JS.truncate q mod 65536)); lia.
Qed.

(** ** The encoder *)

Lemma spec_clamp_range (x : JS.number) : (-1 <= spec_clamp x <= 1)%Q.
Proof.
  destruct x as [|[]|q]; cbn; try lra.
  destruct (Qlt_le_dec (-1) q); [|lra].
  destruct (Qlt_le_dec q 1); lra.
Qed.

Lemma spec_scale_range (c : Q) :
  (-1 <= c <= 1)%Q -> (inject_Z (-32768) <= spec_scale c <= inject_Z 32767)%Q.
Proof.
  intros H. unfold spec_scale.
  destruct (Qlt_le_dec c 0); unfold inject_Z; lra.
Qed.

Lemma spec_encode_range (x : JS.number) : -32768 <= spec_encode x <= 32767.
Proof.
  apply truncate_range; [lia|].
  apply spec_scale_range, spec_clamp_range.
Qed.

Lemma lt_finite (a b : Q) :
  JS.lt (JS.Finite a) (JS.Finite b) = true <-> (a < b)%Q.
Proof.
  cbn. rewrite negb_true_iff. split.
  - intros H. apply Qnot_le_lt. rewrite <- Qle_bool_iff. congruence.
  - intros H. destruct (Qle_bool b a) eqn:E; [|done].
    apply Qle_bool_iff in E. lra.
Qed.

Lemma lt_finite_false (a b : Q) :
  JS.lt (JS.Finite a) (JS.Finite b) = false <-> (b <= a)%Q.
Proof.
  cbn. rewrite negb_false_iff. apply Qle_bool_iff.
Qed.

(** Decide a comparison of the source and keep it as an inequality. *)
Ltac case_lt a b H :=
  destruct (JS.lt (JS.Finite a) (JS.Finite b)) eqn:H;
  [apply lt_finite in H | apply lt_finite_false in H];
  unfold inject_Z in H.

Lemma encode_finite (c : Q) :
  (-1 <= c <= 1)%Q ->
  JS.ToInt16
    (if JS.lt (JS.Finite c) (JS.of_Z 0)
     then JS.mul (JS.Finite c) (JS.of_Z 32768)
     else JS.mul (JS.Finite c) (JS.of_Z 32767))
  = JS.truncate (spec_scale c).
Proof.
  intros Hc. unfold JS.of_Z, spec_scale.
  case_lt c (inject_Z 0) E; destruct (Qlt_le_dec c 0); try (exfalso; lra);
    cbn [JS.mul]; apply ToInt16_in_range;
    (apply truncate_range; [lia | unfold inject_Z; lra]).
Qed.

Lemma Math_min_finite (a b : Q) :
  JS.Math_min (JS.Finite a) (JS.Finite b)
  = if JS.lt (JS.Finite b) (JS.Finite a) then JS.Finite b else JS.Finite a.
Proof. reflexivity. Qed.

Lemma Math_max_finite (a b : Q) :
  JS.Math_max (JS.Finite a) (JS.Finite b)
  = if JS.lt (JS.Finite a) (JS.Finite b) then JS.Finite b else JS.Finite a.
Proof. reflexivity. Qed.

(** [Math.max(-1, Math.min(1, x))] on a finite sample. *)
Lemma clamp_finite (q : Q) :
  clamp (JS.Finite q) = JS.Finite (spec_clamp (JS.Finite q)).
Proof.
  unfold clamp, JS.of_Z, spec_clamp. rewrite Math_min_finite.
  case_lt q (inject_Z 1) E1; rewrite Math_max_finite.
  - case_lt (inject_Z (-1)) q E2;
      destruct (Qlt_le_dec (-1) q); try (exfalso; lra); [|reflexivity].
    destruct (Qlt_le_dec q 1); [reflexivity|exfalso; lra].
  - case_lt (inject_Z (-1)) (inject_Z 1) E2; [|exfalso; lra].
    destruct (Qlt_le_dec (-1) q); [|exfalso; lra].
    destruct (Qlt_le_dec q 1); [exfalso; lra|reflexivity].
Qed.

(** The clamp of the source on any number: the clamp of the
    specification. *)
Lemma clamp_spec (x : JS.number) :
  x <> JS.NaN -> clamp x = JS.Finite (spec_clamp x).
Proof.
  intros Hx. destruct x as [|[]|q]; [done|reflexivity|reflexivity|].
  apply clamp_finite.
Qed.

Lemma encode_sample_spec (x : JS.number) :
  x <> JS.NaN -> encode_sample x = spec_encode x.
Proof.
  intros Hx. unfold encode_sample, spec_encode. cbv zeta.
  rewrite (clamp_spec x Hx). apply encode_finite, spec_clamp_range.
Qed.

(** ** The buffer of an [Int16Array] *)

Lemma byte_val_range (b : byte) : 0 <= byte_val b <= 255.
Proof. unfold byte_val. pose proof (Byte.to_N_bounded b). lia. Qed.

Lemma byte_val_of_Z (z : Z) : byte_val (byte_of_Z z) = z mod 256.
Proof.
  unfold byte_val, byte_of_Z.
  pose proof (Z.mod_pos_bound z 256 ltac:(lia)) as Hb.
  destruct (Byte.of_N (Z.to_N (z mod 256))) as [b|] eqn:E.
  - apply Byte.to_of_N in E. rewrite E. lia.
  - apply Byte.of_N_None_iff in E. lia.
Qed.

Lemma int16_of_bytes_range (lo hi : byte) :
  -32768 <= int16_of_bytes lo hi <= 32767.
Proof.
  unfold int16_of_bytes. cbv zeta.
  pose proof (byte_val_range lo). pose proof (byte_val_range hi).
  destruct (Z.leb_spec 32768 (byte_val lo + 256 * byte_val hi)); lia.
Qed.

Lemma int16_of_bytes_of_Z (z : Z) :
  -32768 <= z <= 32767 ->
  int16_of_bytes (byte_of_Z z) (byte_of_Z ((z mod 65536) / 256)) = z.
Proof.
  intros Hz. unfold int16_of_bytes. rewrite !byte_val_of_Z. cbv zeta.
  destruct (Z.leb_spec 32768 (z mod 256 + 256 * ((z mod 65536 / 256) mod 256)));
    Z.div_mod_to_equations; lia.
Qed.

Lemma Int16Array_buffer_roundtrip (a : list Z) :
  Forall (fun z => -32768 <= z <= 32767) a ->
  Int16Array_of_buffer (buffer_of_Int16Array a) = inr a.
Proof.
  induction 1 as [|z a Hz _ IH]; [reflexivity|].
  cbn [buffer_of_Int16Array flat_map app Int16Array_of_buffer].
  fold (buffer_of_Int16Array a). rewrite IH.
  by rewrite int16_of_bytes_of_Z.
Qed.

(** Lists two elements at a time. *)
Lemma list_pair_ind {A} (P : list A -> Prop) :
  P [] -> (forall a, P [a]) ->
  (forall a b l, P l -> P (a :: b :: l)) ->
  forall l, P l.
Proof.
  intros H0 H1 H2.
  fix IH 1. intros [|a [|b l]]; [exact H0|apply H1|apply H2, IH].
Qed.

Lemma Int16Array_of_buffer_range (data : list byte) (a : list Z) :
  Int16Array_of_buffer data = inr a ->
  Forall (fun z => -32768 <= z <= 32767) a.
Proof.
  revert a. induction data as [|b|lo hi rest IH] using list_pair_ind;
    intros a; cbn [Int16Array_of_buffer].
  - intros [= <-]. constructor.
  - discriminate.
  - destruct (Int16Array_of_buffer rest) as [e|l]; [discriminate|].
    intros [= <-]. constructor; [apply int16_of_bytes_range|by apply IH].
Qed.

Lemma Int16Array_of_buffer_even (data : list byte) :
  Nat.even (length data) = true ->
  exists a,
    Int16Array_of_buffer data = inr a /\ length data = (2 * length a)%nat.
Proof.
  induction data as [|b|lo hi rest IH] using list_pair_ind;
    cbn [Int16Array_of_buffer length Nat.even].
  - by exists [].
  - discriminate.
  - intros H. destruct (IH H) as (a & -> & Hl).
    eexists; split; [reflexivity|]. cbn [length]. lia.
Qed.

Lemma Int16Array_of_buffer_odd (data : list byte) :
  Nat.even (length data) = false -> Int16Array_of_buffer data = inl RangeError.
Proof.
  induction data as [|b|lo hi rest IH] using list_pair_ind;
    cbn [Int16Array_of_buffer length Nat.even]; [discriminate|reflexivity|].
  intros H. by rewrite (IH H).
Qed.

Lemma encode_samples_range (xs : list JS.number) :
  Forall (fun z => -32768 <= z <= 32767) (encode_samples xs).
Proof.
  induction xs as [|x xs IH]; cbn; constructor; [apply ToInt16_bounds|exact IH].
Qed.

(** The [ArrayBuffer] returned by the encoder holds exactly the
    [Int16Array] filled by its loop. *)
Lemma float32ToInt16PCM_buffer (xs : list JS.number) :
  Int16Array_of_buffer (float32ToInt16PCM xs) = inr (encode_samples xs).
Proof. apply Int16Array_buffer_roundtrip, encode_samples_range. Qed.

(** ** Exactness of the arithmetic on the values the code meets *)

Lemma scale_representable (q : Q) :
  binary32 q -> binary64 (q * 32768) /\ binary64 (q * 32767).
Proof.
  intros (m & e & Hm & He & Hq). split.
  - exists m, (e + 15). repeat split; [lia..|].
    rewrite Qpower_plus by discriminate. rewrite Hq.
    change (Qpower 2 15) with (32768:Q). ring.
  - exists (m * 32767), e. repeat split; [|lia..|].
    + rewrite Z.abs_mul. change (2 ^ 53) with (2 ^ 24 * 2 ^ 29).
      change (Z.abs 32767) with 32767. change (2 ^ 29) with 536870912. nia.
    + rewrite Hq, inject_Z_mult. unfold inject_Z at 3. ring.
Qed.

Lemma decode_representable (k : Z) :
  -32768 <= k <= 32767 ->
  match JS.div_32768 k with
  | JS.Finite q => binary32 q /\ binary64 q
  | _ => False
  end.
Proof.
  intros Hk. cbn.
  assert (k # 32768 == inject_Z k * Qpower 2 (-15))%Q as E.
  { change (Qpower 2 (-15)) with (1 # 32768)%Q.
    unfold Qeq, Qmult, inject_Z. cbn [Qnum Qden]. lia. }
  split; exists k, (-15); (repeat split; [lia..|exact E]).
Qed.

Lemma lookup_map {A B} (f : A -> B) (l : list A) (i : nat) :
  map f l !! i = option_map f (l !! i).
Proof.
  revert i. induction l as [|a l IH]; intros [|i]; cbn; auto.
Qed.

(** C4, as stated, fails on a sequence that holds [NaN]: [Math.min] and
    [Math.max] return [NaN], so the sample is not brought into
    [[-1, 1]]; its encoding is [0]. *)
Lemma nan_sample_is_not_clamped :
  clamp JS.NaN = JS.NaN /\
  ~ (exists c : Q, clamp JS.NaN = JS.Finite c /\ (-1 <= c <= 1)%Q) /\
  encode_samples [JS.Finite (1 # 2); JS.NaN] = [16383; 0].
Proof.
  split; [reflexivity|]. split; [|reflexivity].
  intros (c & Hc & _). discriminate Hc.
Qed.

(** C4, amended.  For every sample sequence and every position holding
    a number (anything but [NaN]): the value is clamped to [[-1, 1]] (a
    sample already in that range is kept, one below it becomes [-1], one
    above it becomes [1]), the clamped value is multiplied by [32768]
    when negative and by [32767] otherwise and truncated toward zero,
    and the result lies in [-32768 .. 32767], so the store into the
    [Int16Array] neither wraps nor overflows.  Every element of the
    output, for any input, is in that range; the returned buffer holds
    exactly these 16-bit values, and [[0.5, -0.5, 1.0, -1.0]] encodes to
    [[16383, -16384, 32767, -32768]]. *)
Theorem float32ToInt16PCM_clamps_scales_truncates
    (xs : list JS.number) (i : nat) (x : JS.number) :
  xs !! i = Some x -> x <> JS.NaN ->
  let c := spec_clamp x in
  let scaled := if Qlt_le_dec c 0 then (c * 32768)%Q else (c * 32767)%Q in
  clamp x = JS.Finite c /\
  (-1 <= c <= 1)%Q /\
  (forall q, x = JS.Finite q -> (-1 <= q <= 1)%Q -> c == q) /\
  (forall q, x = JS.Finite q -> (q < -1)%Q -> c == -1) /\
  (forall q, x = JS.Finite q -> (1 < q)%Q -> c == 1) /\
  (x = JS.Infinity true -> c == -1) /\
  (x = JS.Infinity false -> c == 1) /\
  encode_samples xs !! i = Some (JS.truncate scaled) /\
  -32768 <= JS.truncate scaled <= 32767 /\
  Forall (fun z => -32768 <= z <= 32767) (encode_samples xs) /\
  Int16Array_of_buffer (float32ToInt16PCM xs) = inr (encode_samples xs) /\
  encode_samples
    [JS.Finite (1 # 2); JS.Finite (-1 # 2); JS.Finite 1; JS.Finite (-1)]
  = [16383; -16384; 32767; -32768].
Proof.
  intros Hi Hx c scaled.
  split; [exact (clamp_spec x Hx)|].
  split; [apply spec_clamp_range|].
  split.
  { intros q -> Hq. subst c. cbn.
    destruct (Qlt_le_dec (-1) q); [destruct (Qlt_le_dec q 1)|]; lra. }
  split.
  { intros q -> Hq. subst c. cbn.
    destruct (Qlt_le_dec (-1) q); [exfalso; lra|reflexivity]. }
  split.
  { intros q -> Hq. subst c. cbn.
    destruct (Qlt_le_dec (-1) q); [|exfalso; lra].
    destruct (Qlt_le_dec q 1); [exfalso; lra|reflexivity]. }
  split; [by intros ->|]. split; [by intros ->|].
  split.
  { unfold encode_samples. rewrite lookup_map, Hi. cbn.
    by rewrite (encode_sample_spec x Hx). }
  split; [apply (spec_encode_range x)|].
  split; [apply encode_samples_range|].
  split; [apply float32ToInt16PCM_buffer|reflexivity].
Qed.

Lemma float32ToInt16PCM_clamps_scales_truncates_witness :
  clamp (JS.Finite (5 # 2)) = JS.Finite 1 /\
  encode_samples [JS.Finite (-3 # 4); JS.Finite (5 # 2)] !! 1%nat
  = Some 32767.
Proof.
  pose proof (float32ToInt16PCM_clamps_scales_truncates
                [JS.Finite (-3 # 4); JS.Finite (5 # 2)] 1 (JS.Finite (5 # 2))
                eq_refl ltac:(discriminate)) as H.
  cbv zeta in H. destruct H as (H1 & _ & _ & _ & _ & _ & _ & H8 & _).
  split; [exact H1|exact H8].
Defined.

(** C7, as stated, fails: a [NaN] sample is encoded as [0], which is
    neither bound of the 16-bit range. *)
Lemma nan_sample_is_not_clamped_to_a_bound :
  encode_samples [JS.NaN] = [0] /\
  encode_samples [JS.NaN] <> [-32768] /\
  encode_samples [JS.NaN] <> [32767].
Proof. repeat split; discriminate. Qed.

(** C7, amended.  The encoder is total, and a [NaN] sample at any
    position of any sequence yields the 16-bit value [0] at that
    position: [NaN] passes both [Math.min] and [Math.max], fails the
    test [s < 0], stays [NaN] through the multiplication and is stored
    as [0]; the output holds integers of the 16-bit range only. *)
Theorem nan_sample_encodes_to_zero (xs : list JS.number) (i : nat) :
  xs !! i = Some JS.NaN ->
  encode_samples xs !! i = Some 0 /\
  Forall (fun z => -32768 <= z <= 32767) (encode_samples xs) /\
  Int16Array_of_buffer (float32ToInt16PCM xs) = inr (encode_samples xs).
Proof.
  intros Hi. split; [|split].
  - unfold encode_samples. by rewrite lookup_map, Hi.
  - apply encode_samples_range.
  - apply float32ToInt16PCM_buffer.
Qed.

Lemma nan_sample_encodes_to_zero_witness :
  encode_samples [JS.Finite (1 # 4); JS.NaN] !! 1%nat = Some 0.
Proof.
  exact (proj1 (nan_sample_encodes_to_zero
                  [JS.Finite (1 # 4); JS.NaN] 1 eq_refl)).
Defined.

(** ** Decode, then encode again *)

Lemma truncate_Qmake (n : Z) (d : positive) :
  JS.truncate (n # d) = n ÷ Z.pos d.
Proof. reflexivity. Qed.

Lemma reencode_sample (k : Z) :
  -32768 <= k <= 32767 ->
  encode_sample (JS.div_32768 k) = if 0 <? k then k - 1 else k.
Proof.
  intros Hk. rewrite encode_sample_spec by discriminate.
  unfold spec_encode, JS.div_32768, spec_clamp, spec_scale.
  destruct (Qlt_le_dec (-1) (k # 32768)) as [H1|H1].
  - destruct (Qlt_le_dec (k # 32768) 1) as [H2|H2].
    + destruct (Qlt_le_dec (k # 32768) 0) as [H3|H3].
      * unfold Qlt in H3. cbn in H3.
        destruct (Z.ltb_spec 0 k); [lia|].
        unfold Qmult. cbn [Qnum Qden]. rewrite truncate_Qmake.
        change (Z.pos (32768 * 1)) with 32768.
        rewrite Z.quot_mul; lia.
      * unfold Qle in H3. cbn in H3.
        unfold Qmult. cbn [Qnum Qden]. rewrite truncate_Qmake.
        change (Z.pos (32768 * 1)) with 32768.
        destruct (Z.ltb_spec 0 k).
        -- destruct (quot_bounds (k * 32767) 32768) as [Hq _]; [lia|].
           specialize (Hq ltac:(lia)). lia.
        -- replace k with 0 by lia. reflexivity.
    + exfalso. unfold Qle in H2. cbn in H2. lia.
  - unfold Qle in H1. cbn in H1.
    replace k with (-32768) by lia. reflexivity.
Qed.

Lemma reencode_samples (a : list Z) :
  Forall (fun z => -32768 <= z <= 32767) a ->
  encode_samples (channelData_of a)
  = map (fun k => if 0 <? k then k - 1 else k) a.
Proof.
  induction 1 as [|k a Hk _ IH]; [reflexivity|].
  unfold channelData_of, encode_samples in *. cbn [map].
  by rewrite reencode_sample, IH.
Qed.

(** C5, as stated, fails: the two bytes [01 00] hold the sample [1];
    decoded it is [1/32768], and re-encoded it is
    [truncate (32767/32768) = 0]. *)
Lemma reencode_loses_positive_sample :
  Nat.even (length [x01; x00]) = true /\
  Int16Array_of_buffer [x01; x00] = inr [1] /\
  decode_pcm [x01; x00] = inr [JS.Finite (1 # 32768)] /\
  reencode [x01; x00] = inr [0].
Proof. repeat split; reflexivity. Qed.

(** C5, amended.  For every byte sequence of even length, decoding and
    re-encoding succeeds and gives back every sample that is zero or
    negative unchanged, and every positive sample [k] as [k - 1] (the
    decoder divides by [32768], the encoder multiplies non-negative
    values by [32767] and truncates). *)
Theorem reencode_even_length (data : list byte) :
  Nat.even (length data) = true ->
  exists dataInt16,
    Int16Array_of_buffer data = inr dataInt16 /\
    length data = (2 * length dataInt16)%nat /\
    reencode data
    = inr (map (fun k => if 0 <? k then k - 1 else k) dataInt16).
Proof.
  intros Hev. destruct (Int16Array_of_buffer_even data Hev) as (a & Ha & Hl).
  exists a. split; [exact Ha|]. split; [exact Hl|].
  unfold reencode, decode_pcm. rewrite Ha. cbv beta iota.
  rewrite float32ToInt16PCM_buffer.
  by rewrite reencode_samples by (by eapply Int16Array_of_buffer_range).
Qed.

Lemma reencode_even_length_witness :
  exists dataInt16,
    Int16Array_of_buffer [xff; x7f; x00; x80; x00; x00] = inr dataInt16 /\
    length [xff; x7f; x00; x80; x00; x00] = (2 * length dataInt16)%nat /\
    reencode [xff; x7f; x00; x80; x00; x00]
    = inr (map (fun k => if 0 <? k then k - 1 else k) dataInt16).
Proof.
  exact (reencode_even_length [xff; x7f; x00; x80; x00; x00] eq_refl).
Defined.

(** ** Encode, then decode *)

Lemma spec_clamp_in_range (q : Q) :
  (-1 <= q <= 1)%Q -> spec_clamp (JS.Finite q) == q.
Proof.
  intros Hq. cbn.
  destruct (Qlt_le_dec (-1) q); [destruct (Qlt_le_dec q 1)|]; lra.
Qed.

Lemma Qmake_32768 (t : Z) : ((t # 32768) * 32768 == inject_Z t)%Q.
Proof. unfold Qeq, Qmult, inject_Z. cbn [Qnum Qden]. lia. Qed.

(** C6, as stated, fails, and not only at the extremes: the binary32
    sample [32769/65536] (just above one half) is encoded as [16383] and
    decoded as [16383/32768], one and a half quantization steps below
    it. *)
Lemma encode_decode_error_exceeds_one_step :
  let s := (32769 # 65536)%Q in
  binary32 s /\
  (-1 + (1 # 4) < s)%Q /\ (s < 1 - (1 # 4))%Q /\
  encode_decode_sample (JS.Finite s) = JS.Finite (16383 # 32768) /\
  (s - (16383 # 32768) == 3 # 65536)%Q /\
  (1 # 32768 < Qabs (s - (16383 # 32768)))%Q.
Proof.
  cbv zeta. split.
  { exists 32769, (-16). split; [lia|]. split; [lia|]. by vm_compute. }
  split; [reflexivity|]. split; [reflexivity|]. split; [reflexivity|].
  split; by vm_compute.
Qed.

(** C6, amended.  For every sample [q] in [[-1, 1]], encoding and then
    dividing by [32768] gives a value [r] that is strictly less than two
    quantization steps away from [q]: for a negative [q], [r] lies in
    [[q, q + 1/32768)]; for a non-negative [q], [r] lies in
    [(q - (1 + q)/32768, q - q/32768]], so the error can exceed one step
    anywhere in the positive range.  At the extremes [-1] maps to [-1]
    and [1] maps to [32767/32768]. *)
Theorem encode_decode_within_two_steps (q : Q) :
  (-1 <= q <= 1)%Q ->
  exists r : Q,
    encode_decode_sample (JS.Finite q) = JS.Finite r /\
    (q < 0 -> q <= r /\ r < q + (1 # 32768))%Q /\
    (0 <= q -> q - (1 + q) * (1 # 32768) < r /\ r <= q - q * (1 # 32768))%Q /\
    (Qabs (q - r) < 2 # 32768)%Q /\
    (q == -1 -> r == -1)%Q /\
    (q == 1 -> r == 32767 # 32768)%Q.
Proof.
  intros Hq.
  exists (spec_encode (JS.Finite q) # 32768)%Q.
  split.
  { unfold encode_decode_sample, JS.div_32768.
    by rewrite encode_sample_spec by discriminate. }
  pose proof (spec_clamp_in_range q Hq) as Hc.
  pose proof (Qmake_32768 (spec_encode (JS.Finite q))) as Hr.
  set (r := (spec_encode (JS.Finite q) # 32768)%Q) in *.
  assert ((q < 0 -> q <= r /\ r < q + (1 # 32768)) /\
          (0 <= q ->
           q - (1 + q) * (1 # 32768) < r /\ r <= q - q * (1 # 32768)))%Q
    as [Hneg Hpos].
  { unfold spec_encode, spec_scale in Hr.
    set (c := spec_clamp (JS.Finite q)) in *.
    destruct (Qlt_le_dec c 0) as [Hlt|Hge].
    - destruct (truncate_nonpos (c * 32768)) as [H1 H2]; [lra|].
      split; intros ?; [split; lra|exfalso; lra].
    - destruct (truncate_nonneg (c * 32767)) as [H1 H2]; [lra|].
      split; intros ?; [exfalso; lra|split; lra]. }
  split; [exact Hneg|]. split; [exact Hpos|].
  split.
  { apply Qabs_Qlt_condition.
    destruct (Qlt_le_dec q 0) as [H|H].
    - destruct (Hneg H). split; lra.
    - destruct (Hpos H). split; lra. }
  split; intros E.
  - destruct (Hneg ltac:(lra)) as [H1 H2].
    assert (spec_encode (JS.Finite q) = -32768) as Ht.
    { assert (inject_Z (-32768) <= inject_Z (spec_encode (JS.Finite q)))%Q as Ha
        by (change (inject_Z (-32768)) with (-32768)%Q; lra).
      assert (inject_Z (spec_encode (JS.Finite q)) < inject_Z (-32767))%Q as Hb
        by (change (inject_Z (-32767)) with (-32767)%Q; lra).
      rewrite <- Zle_Qle in Ha. rewrite <- Zlt_Qlt in Hb. lia. }
    subst r. by rewrite Ht.
  - destruct (Hpos ltac:(lra)) as [H1 H2].
    assert (spec_encode (JS.Finite q) = 32767) as Ht.
    { assert (inject_Z 32766 < inject_Z (spec_encode (JS.Finite q)))%Q as Ha
        by (change (inject_Z 32766) with 32766%Q; lra).
      assert (inject_Z (spec_encode (JS.Finite q)) <= inject_Z 32767)%Q as Hb
        by (change (inject_Z 32767) with 32767%Q; lra).
      rewrite <- Zlt_Qlt in Ha. rewrite <- Zle_Qle in Hb. lia. }
    subst r. by rewrite Ht.
Qed.

Lemma encode_decode_within_two_steps_witness :
  exists r : Q,
    encode_decode_sample (JS.Finite (3 # 10)) = JS.Finite r /\
    (Qabs ((3 # 10) - r) < 2 # 32768)%Q.
Proof.
  destruct (encode_decode_within_two_steps (3 # 10))
    as (r & Hr & _ & _ & Hd & _).
  - split; by vm_compute.
  - exists r. split; [exact Hr|exact Hd].
Defined.

(** ** Base64 *)

Module Base64Facts.
Import Base64.
Local Open Scope N_scope.

(** A property of the 64 six-bit values, checked on each of them. *)
Lemma forall_below (P : N -> bool) (n : nat) :
  forallb P (map N.of_nat (seq 0 n)) = true ->
  forall i, i < N.of_nat n -> P i = true.
Proof.
  intros H i Hi. rewrite forallb_forall in H. apply H.
  apply in_map_iff. exists (N.to_nat i). split; [lia|].
  apply in_seq. lia.
Qed.

Lemma alphabet_index_char (i : N) :
  i < 64 -> alphabet_index (alphabet_char i) = Some i.
Proof.
  intros Hi.
  pose proof (forall_below
    (fun i => match alphabet_index (alphabet_char i) with
              | Some j => j =? i
              | None => false
              end) 64 eq_refl i Hi) as H.
  cbv beta in H. destruct (alphabet_index (alphabet_char i)); [|done].
  apply N.eqb_eq in H. by subst.
Qed.

Lemma alphabet_char_plain (i : N) :
  i < 64 ->
  is_ascii_whitespace (alphabet_char i) = false /\
  (alphabet_char i =? equals_sign) = false /\
  is_base64_char (alphabet_char i) = true.
Proof.
  intros Hi.
  pose proof (forall_below
    (fun i => negb (is_ascii_whitespace (alphabet_char i))
              && negb (alphabet_char i =? equals_sign)
              && is_base64_char (alphabet_char i)) 64 eq_refl i Hi) as H.
  cbv beta in H.
  apply andb_prop in H as [H H3]. apply andb_prop in H as [H1 H2].
  apply negb_true_iff in H1, H2. done.
Qed.

(** Lists three elements at a time. *)
Lemma list_triple_ind {A} (P : list A -> Prop) :
  P [] -> (forall a, P [a]) -> (forall a b, P [a; b]) ->
  (forall a b c l, P l -> P (a :: b :: c :: l)) ->
  forall l, P l.
Proof.
  intros H0 H1 H2 H3.
  fix IH 1. intros [|a [|b [|c l]]];
    [exact H0|apply H1|apply H2|apply H3, IH].
Qed.

(** Linear arithmetic with division and remainder by constants. *)
Ltac lia_div := zify; Z.to_euclidean_division_equations; lia.

Lemma sextets_of_bound (bytes : list N) :
  Forall (fun b => b <= 255) bytes ->
  Forall (fun s => s < 64) (sextets_of bytes).
Proof.
  induction bytes as [|a|a b|a b c l IH] using list_triple_ind;
    intros H; cbn [sextets_of].
  - constructor.
  - inversion_clear H. repeat constructor; lia_div.
  - inversion_clear H as [|? ? Ha H']. inversion_clear H'.
    repeat constructor; lia_div.
  - inversion_clear H as [|? ? Ha H']. inversion_clear H' as [|? ? Hb H''].
    inversion_clear H'' as [|? ? Hc Hl].
    repeat (constructor; [lia_div|]). by apply IH.
Qed.

Lemma bytes_of_sextets_of (bytes : list N) :
  Forall (fun b => b <= 255) bytes ->
  bytes_of_sextets (sextets_of bytes) = bytes.
Proof.
  induction bytes as [|a|a b|a b c l IH] using list_triple_ind;
    intros H; cbn [sextets_of bytes_of_sextets].
  - reflexivity.
  - inversion_clear H. f_equal. lia_div.
  - inversion_clear H as [|? ? Ha H']. inversion_clear H'.
    f_equal; [lia_div|]. f_equal. lia_div.
  - inversion_clear H as [|? ? Ha H']. inversion_clear H' as [|? ? Hb H''].
    inversion_clear H'' as [|? ? Hc Hl].
    rewrite (IH Hl). f_equal; [lia_div|]. f_equal; [lia_div|]. f_equal. lia_div.
Qed.

Lemma mapM_index_chars (s : list N) :
  Forall (fun i => i < 64) s -> mapM_index (map alphabet_char s) = Some s.
Proof.
  induction 1 as [|i s Hi _ IH]; [reflexivity|].
  cbn [map mapM_index]. by rewrite alphabet_index_char, IH.
Qed.

Lemma length_sextets_of (bytes : list N) :
  (length (sextets_of bytes) + length (padding (length bytes))
   = 4 * ((length bytes + 2) / 3))%nat /\
  (length (sextets_of bytes) mod 4 <> 1)%nat.
Proof.
  induction bytes as [|a|a b|a b c l [IH1 IH2]] using list_triple_ind.
  - by cbn.
  - by cbn.
  - by cbn.
  - cbn [sextets_of length].
    replace (padding (S (S (S (length l))))) with (padding (length l)).
    2:{ unfold padding. f_equal.
        change (S (S (S (length l)))) with (3 + length l)%nat.
        rewrite <- (Nat.Div0.add_mod_idemp_l 3 (length l) 3). reflexivity. }
    split.
    + replace (S (S (S (length l))) + 2)%nat
        with (1 * 3 + (length l + 2))%nat by lia.
      rewrite Nat.div_add_l by lia. lia.
    + replace (S (S (S (S (length (sextets_of l))))))
        with (length (sextets_of l) + 1 * 4)%nat by lia.
      by rewrite Nat.Div0.mod_add.
Qed.

Lemma filter_all {A} (P : A -> Prop) `{forall x, Decision (P x)} (l : list A) :
  Forall P l -> filter P l = l.
Proof.
  induction 1 as [|x l Hx _ IH]; [reflexivity|].
  rewrite filter_cons_True by done. by rewrite IH.
Qed.

Lemma remove_trailing_equals_snoc (l : js_string) :
  remove_trailing_equals (l ++ [equals_sign]) = l.
Proof.
  unfold remove_trailing_equals. rewrite rev_unit.
  rewrite N.eqb_refl. apply rev_involutive.
Qed.

Lemma remove_trailing_equals_plain (l : js_string) :
  Forall (fun c => (c =? equals_sign) = false) l ->
  remove_trailing_equals l = l.
Proof.
  intros H. unfold remove_trailing_equals.
  destruct (rev l) as [|c r] eqn:E; [reflexivity|].
  assert (In c l) as Hc by (apply in_rev; rewrite E; by left).
  rewrite Forall_forall in H. apply list_elem_of_In in Hc.
  by rewrite (H c Hc).
Qed.

Lemma strip_padding_encoded (bytes : list N) :
  Forall (fun b => b <= 255) bytes ->
  strip_padding (map alphabet_char (sextets_of bytes) ++ padding (length bytes))
  = map alphabet_char (sextets_of bytes).
Proof.
  intros Hb. unfold strip_padding.
  destruct (length_sextets_of bytes) as [Hlen _].
  rewrite length_app, length_map, Hlen.
  rewrite Nat.mul_comm, Nat.Div0.mod_mul. cbn [Nat.eqb].
  assert (Forall (fun c => (c =? equals_sign) = false)
                 (map alphabet_char (sextets_of bytes))) as Hplain.
  { apply Forall_map. eapply Forall_impl; [apply sextets_of_bound, Hb|].
    intros i Hi. cbv beta. apply alphabet_char_plain, Hi. }
  unfold padding. destruct (length bytes mod 3)%nat as [|[|[|n]]].
  - rewrite app_nil_r. by rewrite !(remove_trailing_equals_plain _ Hplain).
  - change [equals_sign; equals_sign] with ([equals_sign] ++ [equals_sign]).
    rewrite app_assoc. by rewrite !remove_trailing_equals_snoc.
  - rewrite remove_trailing_equals_snoc.
    by rewrite (remove_trailing_equals_plain _ Hplain).
  - rewrite app_nil_r. by rewrite !(remove_trailing_equals_plain _ Hplain).
Qed.

Lemma encoded_chars (bytes : list N) :
  Forall (fun b => b <= 255) bytes ->
  Forall (fun c => is_ascii_whitespace c = false /\ is_base64_char c = true)
         (map alphabet_char (sextets_of bytes) ++ padding (length bytes)).
Proof.
  intros Hb. apply Forall_app. split.
  - apply Forall_map. eapply Forall_impl; [apply sextets_of_bound, Hb|].
    intros i Hi. cbv beta. split; apply alphabet_char_plain, Hi.
  - unfold padding. destruct (length bytes mod 3)%nat as [|[|[|n]]];
      repeat constructor.
Qed.

(** [atob] undoes [btoa] on every string of code units up to [0xFF]. *)
Lemma atob_btoa (data : js_string) :
  Forall (fun c => c <= 255) data ->
  exists text,
    btoa data = inr text /\
    Forall (fun c => is_base64_char c = true) text /\
    atob text = inr data.
Proof.
  intros Hb.
  exists (map alphabet_char (sextets_of data) ++ padding (length data)).
  pose proof (encoded_chars data Hb) as Hchars.
  split; [|split].
  - unfold btoa.
    replace (forallb (fun c => c <=? 255) data) with true; [reflexivity|].
    symmetry. apply forallb_forall. intros c Hc.
    rewrite Forall_forall in Hb. apply N.leb_le, Hb. by apply list_elem_of_In.
  - eapply Forall_impl; [exact Hchars|]. by intros c [_ ?].
  - unfold atob. cbv zeta.
    rewrite filter_all
      by (eapply Forall_impl; [exact Hchars|]; by intros c [? _]).
    rewrite strip_padding_encoded by done.
    destruct (length_sextets_of data) as [_ Hlen].
    rewrite length_map.
    destruct (Nat.eqb_spec (length (sextets_of data) mod 4) 1); [done|].
    rewrite mapM_index_chars by (by apply sextets_of_bound).
    by rewrite bytes_of_sextets_of.
Qed.
End Base64Facts.

Lemma Uint8_store_fromCharCode (b : byte) :
  Uint8_store (String_fromCharCode b) = b.
Proof.
  unfold Uint8_store, String_fromCharCode.
  pose proof (Byte.to_N_bounded b).
  rewrite N.mod_small by lia. by rewrite Byte.of_to_N.
Qed.

Lemma Uint8_store_bytes (b : list byte) :
  map Uint8_store (map String_fromCharCode b) = b.
Proof.
  rewrite map_map. rewrite <- (map_id b) at 2.
  apply map_ext. intros x. apply Uint8_store_fromCharCode.
Qed.

Lemma arrayBufferToBase64_defined (b : list byte) :
  exists text,
    arrayBufferToBase64 b = inr text /\
    Forall (fun c => Base64.is_base64_char c = true) text /\
    Base64.atob text = inr (map String_fromCharCode b).
Proof.
  apply Base64Facts.atob_btoa.
  apply Forall_map, Forall_forall. intros x _. apply Byte.to_N_bounded.
Qed.

(** The encoding is injective: equal texts come from equal bytes. *)
Corollary arrayBufferToBase64_injective (b1 b2 : list byte) :
  arrayBufferToBase64 b1 = arrayBufferToBase64 b2 -> b1 = b2.
Proof.
  intros E.
  destruct (arrayBufferToBase64_defined b1) as (t1 & H1 & _ & D1).
  destruct (arrayBufferToBase64_defined b2) as (t2 & H2 & _ & D2).
  rewrite E, H2 in H1. injection H1 as ->. rewrite D1 in D2.
  injection D2 as D2. apply (f_equal (map Uint8_store)) in D2.
  by rewrite !Uint8_store_bytes in D2.
Qed.

(** C9.  For every byte sequence [b], [arrayBufferToBase64] succeeds,
    its text uses only the 64 characters of the base64 alphabet and the
    padding sign [=], and [base64ToUint8Array] applied to that text gives
    back exactly [b]. *)
Theorem base64_transport_roundtrip (b : list byte) :
  exists text,
    arrayBufferToBase64 b = inr text /\
    Forall (fun c => Base64.is_base64_char c = true) text /\
    base64ToUint8Array text = inr b.
Proof.
  destruct (arrayBufferToBase64_defined b) as (text & Henc & Hchars & Hdec).
  exists text. split; [exact Henc|]. split; [exact Hchars|].
  unfold base64ToUint8Array. rewrite Hdec.
  by rewrite Uint8_store_bytes.
Qed.

(** ** The microphone path and the chunk decoder *)

Lemma length_buffer_of_Int16Array (a : list Z) :
  length (buffer_of_Int16Array a) = (2 * length a)%nat.
Proof.
  induction a as [|z a IH]; [reflexivity|].
  cbn [buffer_of_Int16Array flat_map app length].
  fold (buffer_of_Int16Array a). rewrite IH. lia.
Qed.

Lemma length_float32ToInt16PCM (xs : list JS.number) :
  length (float32ToInt16PCM xs) = (2 * length xs)%nat.
Proof.
  unfold float32ToInt16PCM, encode_samples.
  by rewrite length_buffer_of_Int16Array, length_map.
Qed.

Lemma arrayBufferToBase64_length (b : list byte) (text : Base64.js_string) :
  arrayBufferToBase64 b = inr text ->
  length text = (4 * ((length b + 2) / 3))%nat.
Proof.
  unfold arrayBufferToBase64, Base64.btoa. cbv zeta.
  destruct (forallb _ _); [|intros; discriminate]. intros [= <-].
  rewrite length_app, length_map.
  destruct (Base64Facts.length_sextets_of (map String_fromCharCode b))
    as [E _].
  rewrite E. by rewrite length_map.
Qed.

(** The text of a buffer decodes to the buffer. *)
Lemma base64ToUint8Array_encoded (b : list byte) (text : Base64.js_string) :
  arrayBufferToBase64 b = inr text -> base64ToUint8Array text = inr b.
Proof.
  intros E. destruct (arrayBufferToBase64_defined b) as (t & Ht & _ & Hd).
  rewrite E in Ht. injection Ht as <-.
  unfold base64ToUint8Array. by rewrite Hd, Uint8_store_bytes.
Qed.

Lemma map_encode_decode (xs : list JS.number) :
  channelData_of (encode_samples xs) = map encode_decode_sample xs.
Proof. unfold channelData_of, encode_samples. by rewrite map_map. Qed.

(** With the text of the encoded buffer at hand, the handler is
    [sendAudio] on that text. *)
Lemma onaudioprocess_sends (inputData : list JS.number)
    (base64 : Base64.js_string) :
  arrayBufferToBase64 (float32ToInt16PCM inputData) = inr base64 ->
  forall currentSession sendRealtimeInput,
    onaudioprocess currentSession sendRealtimeInput inputData
    = if currentSession then
        ([{| mimeType := "audio/pcm;rate=16000"; data := base64 |}],
         sendRealtimeInput
           {| mimeType := "audio/pcm;rate=16000"; data := base64 |})
      else ([], None).
Proof.
  intros E currentSession sendRealtimeInput.
  unfold onaudioprocess. cbv zeta. rewrite E. reflexivity.
Qed.

(** X1.  For every buffer of microphone samples, [float32ToInt16PCM]
    returns exactly two bytes per sample and the two encoding calls of
    the live session's handler never throw.  While the session is
    connected the handler hands the SDK exactly one input, of type
    [audio/pcm;rate=16000], whose data has [4 * ceil(2n / 3)]
    characters for [n] samples, all of them from the base64 alphabet or
    the padding sign, and it throws exactly what [sendRealtimeInput]
    throws on that input; after [disconnect] it hands over nothing and
    does not throw. *)
Theorem onaudioprocess_message_size (inputData : list JS.number) :
  length (float32ToInt16PCM inputData) = (2 * length inputData)%nat /\
  exists base64,
    arrayBufferToBase64 (float32ToInt16PCM inputData) = inr base64 /\
    length base64 = (4 * ((2 * length inputData + 2) / 3))%nat /\
    Forall (fun c => Base64.is_base64_char c = true) base64 /\
    (forall sendRealtimeInput,
       onaudioprocess true sendRealtimeInput inputData
       = ([{| mimeType := "audio/pcm;rate=16000"; data := base64 |}],
          sendRealtimeInput
            {| mimeType := "audio/pcm;rate=16000"; data := base64 |})) /\
    (forall sendRealtimeInput,
       onaudioprocess false sendRealtimeInput inputData = ([], None)).
Proof.
  split; [apply length_float32ToInt16PCM|].
  destruct (arrayBufferToBase64_defined (float32ToInt16PCM inputData))
    as (t & Ht & Hc & _).
  exists t. split; [exact Ht|]. split; [|split; [exact Hc|]].
  - rewrite (arrayBufferToBase64_length _ _ Ht).
    by rewrite length_float32ToInt16PCM.
  - split; intros f; by rewrite (onaudioprocess_sends _ _ Ht).
Qed.

(** X2.  Encoder, transport and decoder compose: the text sent for a
    buffer of microphone samples decodes, with [base64ToUint8Array], to
    the encoder's bytes, and the decoder of the players turns it into
    one sample per input sample, each the input sample encoded to 16
    bits and divided by [32768].  An empty buffer gives the empty text,
    which the decoder refuses ([createBuffer] with zero frames). *)
Theorem onaudioprocess_loopback (inputData : list JS.number) :
  exists base64,
    (forall sendRealtimeInput,
       onaudioprocess true sendRealtimeInput inputData
       = ([{| mimeType := "audio/pcm;rate=16000"; data := base64 |}],
          sendRealtimeInput
            {| mimeType := "audio/pcm;rate=16000"; data := base64 |})) /\
    base64ToUint8Array base64 = inr (float32ToInt16PCM inputData) /\
    decode_chunk base64 =
      match inputData with
      | [] => inl NotSupportedError
      | _ :: _ => inr (map encode_decode_sample inputData)
      end.
Proof.
  destruct (arrayBufferToBase64_defined (float32ToInt16PCM inputData))
    as (t & Ht & _ & _).
  exists t. split.
  { intros f. by rewrite (onaudioprocess_sends _ _ Ht). }
  pose proof (base64ToUint8Array_encoded _ _ Ht) as Hd.
  split; [exact Hd|]. unfold decode_chunk.
  rewrite Hd, float32ToInt16PCM_buffer.
  unfold encode_samples. rewrite length_map.
  destruct inputData as [|x xs]; [reflexivity|].
  cbn [length createBuffer]. by rewrite <- map_encode_decode.
Qed.

(** X3.  What the decoder of [playPCMAudio] and [playChunk] makes of
    the base64 text of a byte buffer depends on the number of bytes
    only: no byte at all is refused with [NotSupportedError], an odd
    number of bytes with [RangeError] (no truncated audio is played),
    and an even number gives one sample per two bytes. *)
Theorem decode_chunk_by_byte_count (b : list byte) :
  exists base64,
    arrayBufferToBase64 b = inr base64 /\
    match length b with
    | O => decode_chunk base64 = inl NotSupportedError
    | S _ =>
        if Nat.even (length b) then
          exists dataInt16,
            Int16Array_of_buffer b = inr dataInt16 /\
            length b = (2 * length dataInt16)%nat /\
            decode_chunk base64 = inr (channelData_of dataInt16)
        else decode_chunk base64 = inl RangeError
    end.
Proof.
  destruct (arrayBufferToBase64_defined b) as (t & Ht & _ & _).
  exists t. split; [exact Ht|].
  pose proof (base64ToUint8Array_encoded _ _ Ht) as Hd.
  unfold decode_chunk. rewrite Hd.
  destruct b as [|x b']; [reflexivity|]. set (b := x :: b') in *.
  change (length b) with (S (length b')) at 1. cbv iota.
  destruct (Nat.even (length b)) eqn:Ev.
  - destruct (Int16Array_of_buffer_even b Ev) as (a & Ha & Hl).
    exists a. rewrite Ha. split; [reflexivity|]. split; [exact Hl|].
    destruct a as [|z a]; [cbn in Hl; discriminate|reflexivity].
  - by rewrite (Int16Array_of_buffer_odd b Ev).
Qed.

Lemma mapM_index_foreign (l : Base64.js_string) (c : N) :
  In c l -> Base64.alphabet_index c = None -> Base64.mapM_index l = None.
Proof.
  intros Hin Hc. induction l as [|a l IH]; [destruct Hin|].
  cbn [Base64.mapM_index]. destruct Hin as [->|Hin].
  - by rewrite Hc.
  - rewrite (IH Hin). by destruct (Base64.alphabet_index a).
Qed.

Lemma remove_trailing_equals_keeps (l : Base64.js_string) (c : N) :
  In c l -> c <> Base64.equals_sign -> In c (Base64.remove_trailing_equals l).
Proof.
  intros Hin Hc. unfold Base64.remove_trailing_equals.
  destruct (rev l) as [|a r] eqn:E; [exact Hin|].
  destruct (N.eqb_spec a Base64.equals_sign) as [->|_]; [|exact Hin].
  apply in_rev in Hin. rewrite E in Hin. destruct Hin as [<-|Hin]; [done|].
  by apply in_rev in Hin.
Qed.

Lemma strip_padding_keeps (l : Base64.js_string) (c : N) :
  In c l -> c <> Base64.equals_sign -> In c (Base64.strip_padding l).
Proof.
  intros Hin Hc. unfold Base64.strip_padding.
  destruct (_ =? _)%nat; [|exact Hin].
  apply remove_trailing_equals_keeps; [|exact Hc].
  by apply remove_trailing_equals_keeps.
Qed.

Lemma atob_foreign (base64 : Base64.js_string) (c : N) :
  In c base64 ->
  Base64.is_ascii_whitespace c = false ->
  Base64.is_base64_char c = false ->
  Base64.atob base64 = inl InvalidCharacterError.
Proof.
  intros Hin Hws Hc. unfold Base64.is_base64_char in Hc.
  destruct (Base64.alphabet_index c) eqn:Hidx; [discriminate|].
  apply N.eqb_neq in Hc.
  unfold Base64.atob. cbv zeta.
  set (data := filter _ base64).
  assert (In c data) as Hd.
  { apply list_elem_of_In, list_elem_of_filter. split; [exact Hws|].
    by apply list_elem_of_In. }
  destruct (_ =? 1)%nat; [reflexivity|].
  by rewrite (mapM_index_foreign _ c (strip_padding_keeps _ _ Hd Hc) Hidx).
Qed.

(** X4.  A text that holds, anywhere, a character that is neither of
    the base64 alphabet, nor the padding sign, nor ASCII white space is
    refused as a whole: [base64ToUint8Array] throws
    [InvalidCharacterError], and so does the decoder of the players; no
    part of such a chunk is played. *)
Theorem base64ToUint8Array_rejects_foreign_characters
    (base64 : Base64.js_string) (c : N) :
  In c base64 ->
  Base64.is_ascii_whitespace c = false ->
  Base64.is_base64_char c = false ->
  base64ToUint8Array base64 = inl InvalidCharacterError /\
  decode_chunk base64 = inl InvalidCharacterError.
Proof.
  intros Hin Hws Hc. pose proof (atob_foreign _ _ Hin Hws Hc) as E.
  unfold decode_chunk, base64ToUint8Array. by rewrite E.
Qed.

Lemma base64ToUint8Array_rejects_foreign_characters_witness :
  base64ToUint8Array [65; 81; 33; 47]%N = inl InvalidCharacterError /\
  decode_chunk [65; 81; 33; 47]%N = inl InvalidCharacterError.
Proof.
  apply (base64ToUint8Array_rejects_foreign_characters
           [65; 81; 33; 47]%N 33%N);
    [cbn; tauto|reflexivity|reflexivity].
Defined.

Lemma div_32768_range (z : Z) :
  -32768 <= z <= 32767 ->
  exists q, JS.div_32768 z = JS.Finite q /\ (-1 <= q)%Q /\ (q < 1)%Q.
Proof.
  intros Hz. exists (z # 32768). split; [reflexivity|].
  unfold Qle, Qlt. cbn. lia.
Qed.

(** X5.  Whatever chunk the decoder of the players accepts, the buffer
    it fills is not empty and every sample in it is a finite number in
    [[-1, 1)]: a decoded chunk never holds [NaN], an infinity or a
    value beyond full scale. *)
Theorem decoded_samples_are_in_range
    (base64Audio : Base64.js_string) (channelData : list JS.number) :
  decode_chunk base64Audio = inr channelData ->
  channelData <> [] /\
  Forall (fun x => exists q, x = JS.Finite q /\ (-1 <= q)%Q /\ (q < 1)%Q)
         channelData.
Proof.
  unfold decode_chunk.
  destruct (base64ToUint8Array base64Audio) as [e|data]; [discriminate|].
  destruct (Int16Array_of_buffer data) as [e|dataInt16] eqn:E; [discriminate|].
  apply Int16Array_of_buffer_range in E.
  destruct (createBuffer (length dataInt16)) as [e|[]] eqn:Hb; [discriminate|].
  intros [= <-]. split; [by destruct dataInt16|].
  unfold channelData_of. clear Hb.
  induction E as [|k a Hk _ IH]; cbn [map]; constructor;
    [by apply div_32768_range|exact IH].
Qed.

Lemma decoded_samples_are_in_range_witness :
  channelData_of [1; -1] <> [] /\
  Forall (fun x => exists q, x = JS.Finite q /\ (-1 <= q)%Q /\ (q < 1)%Q)
         (channelData_of [1; -1]).
Proof.
  exact (decoded_samples_are_in_range [65; 81; 68; 47; 47; 119; 61; 61]%N
           (channelData_of [1; -1]) eq_refl).
Defined.

(** *** The encoder keeps the order of samples *)

Lemma truncate_monotone (q1 q2 : Q) :
  (q1 <= q2)%Q -> JS.truncate q1 <= JS.truncate q2.
Proof.
  intros Hle.
  assert (forall a b : Z, (inject_Z a < inject_Z b + 1)%Q -> a <= b) as Hz.
  { intros a b. unfold Qlt, Qplus, inject_Z. cbn. lia. }
  assert (forall a b : Z, (inject_Z a - 1 < inject_Z b)%Q -> a <= b) as Hz'.
  { intros a b. unfold Qlt, Qminus, Qplus, Qopp, inject_Z. cbn. lia. }
  destruct (Qlt_le_dec q1 0) as [H1|H1], (Qlt_le_dec q2 0) as [H2|H2].
  - destruct (truncate_nonpos q1) as [_ A]; [lra|].
    destruct (truncate_nonpos q2) as [B _]; [lra|].
    apply Hz'. revert A B.
    generalize (inject_Z (JS.truncate q1)), (inject_Z (JS.truncate q2)).
    clear Hz Hz'. intros. lra.
  - destruct (truncate_nonpos q1) as [_ A]; [lra|].
    destruct (truncate_nonneg q2 H2) as [_ B].
    assert (JS.truncate q1 <= 0) as L1.
    { apply Hz. change (inject_Z 0) with 0%Q. revert A.
      generalize (inject_Z (JS.truncate q1)). clear Hz Hz'. intros. lra. }
    assert (0 <= JS.truncate q2) as L2.
    { apply Hz. change (inject_Z 0) with 0%Q. revert B.
      generalize (inject_Z (JS.truncate q2)). clear Hz Hz'. intros. lra. }
    lia.
  - exfalso. lra.
  - destruct (truncate_nonneg q1 H1) as [A _].
    destruct (truncate_nonneg q2 H2) as [_ B].
    apply Hz. revert A B.
    generalize (inject_Z (JS.truncate q1)), (inject_Z (JS.truncate q2)).
    clear Hz Hz'. intros. lra.
Qed.

Lemma spec_clamp_monotone (x y : Q) :
  (x <= y)%Q -> (spec_clamp (JS.Finite x) <= spec_clamp (JS.Finite y))%Q.
Proof.
  intros Hle. cbn.
  destruct (Qlt_le_dec (-1) x), (Qlt_le_dec (-1) y);
    try destruct (Qlt_le_dec x 1); try destruct (Qlt_le_dec y 1); lra.
Qed.

Lemma spec_scale_monotone (c d : Q) :
  (c <= d)%Q -> (spec_scale c <= spec_scale d)%Q.
Proof.
  intros Hle. unfold spec_scale.
  destruct (Qlt_le_dec c 0), (Qlt_le_dec d 0); lra.
Qed.

(** X6.  The encoder is monotone: of two finite samples, the larger one
    never gets the smaller 16-bit value, whether the samples lie within
    [[-1, 1]] or not.  In particular the sign of a sample is kept
    ([0] encodes to [0]), and the two scales, [32768] below zero and
    [32767] from zero on, never swap two samples. *)
Theorem encode_sample_monotone (x y : Q) :
  (x <= y)%Q ->
  encode_sample (JS.Finite x) <= encode_sample (JS.Finite y).
Proof.
  intros Hle. rewrite !encode_sample_spec by done. unfold spec_encode.
  by apply truncate_monotone, spec_scale_monotone, spec_clamp_monotone.
Qed.

Lemma encode_sample_monotone_witness :
  encode_sample (JS.Finite (-(1 # 2))) <= encode_sample (JS.Finite (1 # 4)).
Proof.
  apply (encode_sample_monotone (-(1 # 2)) (1 # 4)). vm_compute. discriminate.
Defined.

(** ** One-shot playback *)

Lemma get_audioContext_frame pf pg r pg' :
  get_audioContext pf pg = (r, pg') -> same_output pg pg'.
Proof.
  unfold get_audioContext.
  destruct (audioContext pg); [|destruct (new_AudioContext pf)];
    intros [= <- <-]; by split.
Qed.

Lemma resume_if_suspended_frame pf st pg r pg' :
  resume_if_suspended pf st pg = (r, pg') -> same_output pg pg'.
Proof.
  unfold resume_if_suspended, ret.
  destruct st; [destruct (resume pf)|]; intros [= <- <-]; by split.
Qed.

(** Whatever the body does before it throws or suspends, it has neither
    written to the console nor started a source; when it completes, it
    has started exactly the decoded buffer. *)
Lemma playPCMAudio_body_frame pf base64Audio pg r pg' :
  playPCMAudio_body pf base64Audio pg = (r, pg') ->
  console_errors pg' = console_errors pg /\
  match r with
  | Normal _ =>
      exists channelData,
        decode_chunk base64Audio = inr channelData /\
        sources_started pg' = sources_started pg ++ [channelData]
  | _ => sources_started pg' = sources_started pg
  end.
Proof.
  unfold playPCMAudio_body, bind, decode_chunk.
  destruct (get_audioContext pf pg) as [[st|e|] pg1] eqn:E1;
    apply get_audioContext_frame in E1 as [Hc1 Hs1];
    [|by intros [= <- <-]..].
  destruct (resume_if_suspended pf st pg1) as [[[]|e|] pg2] eqn:E2;
    apply resume_if_suspended_frame in E2 as [Hc2 Hs2];
    [|intros [= <- <-]; split; congruence..].
  destruct (base64ToUint8Array base64Audio) as [e|data]; cbn [lift];
    [intros [= <- <-]; split; congruence|]. unfold ret at 1.
  destruct (Int16Array_of_buffer data) as [e|dataInt16]; cbn [lift];
    [intros [= <- <-]; split; congruence|]. unfold ret at 1.
  destruct (createBuffer (length dataInt16)) as [e|[]]; cbn [lift];
    [intros [= <- <-]; split; congruence|]. unfold ret at 1.
  unfold start_now. destruct (start_source pf) as [e|];
    intros [= <- <-]; cbn; [split; congruence|].
  split; [congruence|]. eexists; split; [reflexivity|congruence].
Qed.

(** C8.  For every base64 string, every state of the page and every
    answer of the audio subsystem, the promise returned by
    [playPCMAudio] is never rejected.  When the body fails (invalid
    base64, a byte length that is not a multiple of 2, an empty buffer,
    the context or a node refusing the call), the function completes
    normally, the error is the one line added to the console and no
    source has been started. *)
Theorem playPCMAudio_never_throws
    (pf : platform) (base64Audio : Base64.js_string) (pg : page) :
  (forall e, fst (playPCMAudio pf base64Audio pg) <> Throw e) /\
  (forall e pg1,
     playPCMAudio_body pf base64Audio pg = (Throw e, pg1) ->
     fst (playPCMAudio pf base64Audio pg) = Normal tt /\
     console_errors (snd (playPCMAudio pf base64Audio pg))
     = console_errors pg ++ [e] /\
     sources_started (snd (playPCMAudio pf base64Audio pg))
     = sources_started pg) /\
  (forall e, decode_chunk base64Audio = inl e ->
     fst (playPCMAudio pf base64Audio pg) = Suspended \/
     fst (playPCMAudio pf base64Audio pg) = Normal tt /\
     sources_started (snd (playPCMAudio pf base64Audio pg))
     = sources_started pg /\
     exists e', console_errors (snd (playPCMAudio pf base64Audio pg))
                = console_errors pg ++ [e']).
Proof.
  unfold playPCMAudio, try_catch.
  destruct (playPCMAudio_body pf base64Audio pg) as [[[]|e|] pg1] eqn:E;
    pose proof (playPCMAudio_body_frame _ _ _ _ _ E) as [Hc Hs];
    cbn [fst snd console_error console_errors sources_started].
  - split; [done|]. split; [done|].
    intros e He. destruct Hs as (d & Hd & _). congruence.
  - split; [done|]. split.
    + intros e' pg' [= <- <-]. by rewrite Hc, Hs.
    + intros e' _. right. rewrite Hc, Hs. eauto.
  - split; [done|]. split; [done|]. intros e _. by left.
Qed.

(** On a platform where every call succeeds: ["AQD//w=="] (the samples
    [1] and [-1]) is played; ["!!"] is not base64, ["AQD/"] holds three
    bytes and [""] holds none, and each of them only adds its error to
    the console. *)
Example playPCMAudio_on_samples :
  playPCMAudio obliging_platform [65; 81; 68; 47; 47; 119; 61; 61]%N fresh_page
  = (Normal tt,
     {| audioContext := Some running; console_errors := [];
        sources_started := [channelData_of [1; -1]] |}) /\
  playPCMAudio obliging_platform [33; 33]%N fresh_page
  = (Normal tt,
     {| audioContext := Some running;
        console_errors := [InvalidCharacterError]; sources_started := [] |}) /\
  playPCMAudio obliging_platform [65; 81; 68; 47]%N fresh_page
  = (Normal tt,
     {| audioContext := Some running;
        console_errors := [RangeError]; sources_started := [] |}) /\
  playPCMAudio obliging_platform [] fresh_page
  = (Normal tt,
     {| audioContext := Some running;
        console_errors := [NotSupportedError]; sources_started := [] |}).
Proof. repeat split; reflexivity. Qed.

(** X7.  When the audio subsystem lets the call through (a context
    exists or can be made, it runs or can be resumed, the node calls
    succeed) and the chunk decodes, [playPCMAudio] completes, leaves the
    context running, writes nothing to the console and has started
    exactly one source, which holds exactly the decoded samples. *)
Theorem playPCMAudio_plays_the_decoded_samples
    (pf : platform) (base64Audio : Base64.js_string) (pg : page)
    (channelData : list JS.number) :
  audio_ready pf pg ->
  decode_chunk base64Audio = inr channelData ->
  playPCMAudio pf base64Audio pg
  = (Normal tt,
     {| audioContext := Some running;
        console_errors := console_errors pg;
        sources_started := sources_started pg ++ [channelData] |}).
Proof.
  intros [Hstart Hctx] Hd. unfold decode_chunk in Hd.
  destruct (base64ToUint8Array base64Audio) as [e|data] eqn:E1; [discriminate|].
  destruct (Int16Array_of_buffer data) as [e|dataInt16] eqn:E2; [discriminate|].
  destruct (createBuffer (length dataInt16)) as [e|[]] eqn:E3; [discriminate|].
  injection Hd as <-.
  unfold playPCMAudio, try_catch, playPCMAudio_body, bind, get_audioContext.
  destruct pg as [[[]|] errs srcs]; cbn [audioContext] in *.
  - unfold resume_if_suspended. rewrite Hctx, E1. cbn [lift ret].
    rewrite E2. cbn [lift ret]. rewrite E3. cbn [lift ret].
    unfold start_now. by rewrite Hstart.
  - cbn [resume_if_suspended ret]. rewrite E1. cbn [lift ret].
    rewrite E2. cbn [lift ret]. rewrite E3. cbn [lift ret].
    unfold start_now. by rewrite Hstart.
  - destruct (new_AudioContext pf) as [e|[]]; [done| |].
    + unfold resume_if_suspended. rewrite Hctx, E1. cbn [lift ret].
      rewrite E2. cbn [lift ret]. rewrite E3. cbn [lift ret].
      unfold start_now. by rewrite Hstart.
    + cbn [resume_if_suspended ret]. rewrite E1. cbn [lift ret].
      rewrite E2. cbn [lift ret]. rewrite E3. cbn [lift ret].
      unfold start_now. by rewrite Hstart.
Qed.

Lemma playPCMAudio_plays_the_decoded_samples_witness :
  playPCMAudio obliging_platform [65; 81; 68; 47; 47; 119; 61; 61]%N fresh_page
  = (Normal tt,
     {| audioContext := Some running;
        console_errors := [];
        sources_started := [channelData_of [1; -1]] |}).
Proof.
  apply (playPCMAudio_plays_the_decoded_samples obliging_platform
           [65; 81; 68; 47; 47; 119; 61; 61]%N fresh_page
           (channelData_of [1; -1])).
  - split; reflexivity.
  - reflexivity.
Defined.

(** ** Streaming playback *)

Section LiveAudioPlayerFacts.

Context {time : Type} `{OutputClock time}.

Implicit Types (p : LiveAudioPlayer time) (c : AudioContext time).

(** What a successful [playChunk] does, field by field. *)
Lemma playChunk_scheduled p currentTime base64Audio channelData :
  decode_chunk base64Audio = inr channelData ->
  let source := {| node_id := ctx_created (context p);
                   node_buffer := channelData |} in
  let start := if time_lt (nextStartTime p) currentTime then currentTime
               else nextStartTime p in
  playChunk currentTime base64Audio p
  = ({| context :=
          {| ctx_state := running;
             ctx_created := S (ctx_created (context p));
             ctx_started := ctx_started (context p) ++ [(source, start)];
             ctx_stopped := ctx_stopped (context p) |};
        nextStartTime := time_add start (buffer_duration (length channelData));
        queue := queue p ++ [source] |},
     Scheduled source start).
Proof. intros Hd. unfold playChunk. by rewrite Hd. Qed.

Lemma playChunk_threw p currentTime base64Audio e :
  decode_chunk base64Audio = inl e ->
  playChunk currentTime base64Audio p
  = (with_context p (resumed (context p)), Threw e).
Proof. intros Hd. unfold playChunk. by rewrite Hd. Qed.

(** C2.  For every player state, clock value and well-formed chunk: if
    the cursor is strictly behind the clock when the chunk is
    scheduled, the chunk is started at the clock value, not at the
    cursor, and the cursor becomes the clock value plus the duration
    of the chunk's buffer. *)
Theorem late_chunk_starts_now
    p (currentTime : time) (base64Audio : Base64.js_string)
    (channelData : list JS.number) :
  decode_chunk base64Audio = inr channelData ->
  time_lt (nextStartTime p) currentTime = true ->
  exists source,
    snd (playChunk currentTime base64Audio p) = Scheduled source currentTime /\
    node_buffer source = channelData /\
    ctx_started (context (fst (playChunk currentTime base64Audio p)))
    = ctx_started (context p) ++ [(source, currentTime)] /\
    nextStartTime (fst (playChunk currentTime base64Audio p))
    = time_add currentTime (buffer_duration (length channelData)).
Proof.
  intros Hd Hlt. rewrite (playChunk_scheduled _ _ _ _ Hd). cbv zeta.
  rewrite Hlt. eexists. cbn. repeat split.
Qed.

(** *** Sessions *)

Lemma start_times_length (offset : time) (ds : list time) :
  length (start_times offset ds) = length ds.
Proof. revert offset. induction ds as [|d ds IH]; intros; cbn; auto. Qed.

(** The [i]-th start is the offset plus the first [i] durations, added
    one after the other. *)
Lemma start_times_lookup (offset : time) (ds : list time) (i : nat) (w : time) :
  start_times offset ds !! i = Some w ->
  w = fold_left time_add (take i ds) offset.
Proof.
  revert offset i. induction ds as [|d ds IH]; intros offset [|i]; cbn;
    try discriminate.
  - by intros [= ->].
  - apply IH.
Qed.

(** Consecutive starts are one duration apart. *)
Lemma start_times_next (offset : time) (ds : list time) (i : nat)
    (w w' d : time) :
  start_times offset ds !! i = Some w ->
  ds !! i = Some d ->
  start_times offset ds !! S i = Some w' ->
  w' = time_add w d.
Proof.
  revert offset i. induction ds as [|d0 ds IH]; intros offset [|i]; cbn;
    try discriminate.
  - intros [= ->] [= ->]. destruct ds; cbn; [discriminate|]. by intros [= ->].
  - apply IH.
Qed.

Lemma run_app p (evs1 evs2 : list (event time)) :
  run p (evs1 ++ evs2) = run (run p evs1) evs2.
Proof. apply fold_left_app. Qed.

(** The session of a player that keeps pace, all in one: what was
    scheduled, in which order, when, and where the cursor ends. *)
Lemma session_keeps_pace p (evs : list (session_event time)) :
  keeps_pace p evs ->
  let sched := session_schedule p evs in
  let final := run p (map event_of evs) in
  Forall2 (fun b s => decode_chunk b = inr (node_buffer (fst s)))
          (session_chunks evs) sched /\
  map snd sched
  = start_times (nextStartTime p)
                (map (fun s => source_duration (fst s)) sched) /\
  ctx_started (context final) = ctx_started (context p) ++ sched /\
  nextStartTime final
  = fold_left time_add (map (fun s => source_duration (fst s)) sched)
              (nextStartTime p).
Proof.
  revert p. induction evs as [|[t b|s] evs IH]; intros p Hk.
  - cbn. repeat split; [constructor|by rewrite app_nil_r].
  - cbn [keeps_pace] in Hk. destruct Hk as (Hlt & [d Hd] & Hk).
    specialize (IH _ Hk). cbv zeta in IH.
    destruct IH as (IH1 & IH2 & IH3 & IH4).
    cbn [session_schedule session_chunks map event_of run fold_left step].
    fold (run (fst (playChunk t b p)) (map event_of evs)).
    rewrite (playChunk_scheduled _ _ _ _ Hd) in *. cbv zeta in *.
    rewrite Hlt in *. cbn [fst snd nextStartTime context ctx_started] in *.
    split; [constructor; [exact Hd|exact IH1]|].
    split; [cbn [map start_times source_duration node_buffer fst];
            f_equal; exact IH2|].
    split; [rewrite IH3, <- app_assoc; reflexivity|].
    cbn [map fold_left source_duration node_buffer fst]. exact IH4.
  - cbn [keeps_pace] in Hk. specialize (IH _ Hk).
    cbn [session_schedule session_chunks map event_of run fold_left step].
    exact IH.
Qed.

(** A session usually opens with a chunk that finds the cursor behind
    the clock (a new player has its cursor at [0]).  That chunk starts
    at the clock value, which is then the offset of the session: if the
    later chunks keep pace, the starts are again the running sums. *)
Lemma session_after_first_chunk
    p (t : time) (b : Base64.js_string) (d : list JS.number)
    (evs : list (session_event time)) :
  decode_chunk b = inr d ->
  keeps_pace (fst (playChunk t b p)) evs ->
  let offset := if time_lt (nextStartTime p) t then t else nextStartTime p in
  let sched := session_schedule p (Enqueue t b :: evs) in
  map snd sched
  = start_times offset (map (fun s => source_duration (fst s)) sched).
Proof.
  intros Hd Hk offset sched.
  destruct (session_keeps_pace _ _ Hk) as (_ & H2 & _).
  subst sched. cbn [session_schedule].
  rewrite (playChunk_scheduled _ _ _ _ Hd) in *. cbv zeta in *.
  cbn [fst snd nextStartTime map start_times source_duration node_buffer] in *.
  f_equal. exact H2.
Qed.

(** C1.  For every player state and every session (chunks enqueued in
    order, sources possibly ending in between, no [stop()]) in which
    each chunk is well formed and finds the cursor at or ahead of the
    clock: the chunks are scheduled in enqueue order, the [i]-th one
    starts at the session's initial offset (the cursor at the start of
    the session) plus the durations of the chunks before it, added in
    order, and each chunk starts exactly where the previous one ends:
    no gap, no overlap. *)
Theorem chunks_play_contiguously
    p (evs : list (session_event time)) :
  keeps_pace p evs ->
  let sched := session_schedule p evs in
  let durations := map (fun s => source_duration (fst s)) sched in
  Forall2 (fun b s => decode_chunk b = inr (node_buffer (fst s)))
          (session_chunks evs) sched /\
  ctx_started (context (run p (map event_of evs)))
  = ctx_started (context p) ++ sched /\
  (forall i s w,
     sched !! i = Some (s, w) ->
     w = fold_left time_add (take i durations) (nextStartTime p)) /\
  (forall i s w s' w',
     sched !! i = Some (s, w) -> sched !! S i = Some (s', w') ->
     w' = time_add w (source_duration s)).
Proof.
  intros Hk sched durations.
  destruct (session_keeps_pace p evs Hk) as (H1 & H2 & H3 & _).
  fold sched in H1, H2, H3. fold durations in H2.
  split; [exact H1|]. split; [exact H3|]. split.
  - intros i s w Hi. apply start_times_lookup. rewrite <- H2.
    by rewrite lookup_map, Hi.
  - intros i s w s' w' Hi Hi'.
    apply (start_times_next (nextStartTime p) durations i w w').
    + rewrite <- H2. by rewrite lookup_map, Hi.
    + unfold durations. by rewrite lookup_map, Hi.
    + rewrite <- H2. by rewrite lookup_map, Hi'.
Qed.

(** *** [stop()] *)

Lemma stop_sources_started c (q : list AudioBufferSourceNode) :
  Forall (fun s => was_started c s = true) q ->
  stop_sources c q
  = ({| ctx_state := ctx_state c; ctx_created := ctx_created c;
        ctx_started := ctx_started c;
        ctx_stopped := ctx_stopped c ++ q |}, None).
Proof.
  revert c. induction q as [|s q IH]; intros c Hq.
  - cbn. rewrite app_nil_r. by destruct c.
  - inversion_clear Hq as [|? ? Hs Hq']. cbn [stop_sources]. rewrite Hs.
    rewrite IH by exact Hq'. cbn. by rewrite <- app_assoc.
Qed.

Lemma stop_sources_keeps_started c (q : list AudioBufferSourceNode) :
  ctx_started (fst (stop_sources c q)) = ctx_started c.
Proof.
  revert c. induction q as [|s q IH]; intros c; [reflexivity|].
  cbn [stop_sources]. destruct (was_started c s); [|reflexivity].
  by rewrite IH.
Qed.

Lemma step_queue_started p (ev : event time) :
  queue_started p -> queue_started (step p ev).
Proof.
  unfold queue_started. intros Hp. destruct ev as [t b|s|]; cbn [step].
  - unfold playChunk. destruct (decode_chunk b) as [e|d]; cbn.
    + eapply Forall_impl; [exact Hp|]. intros s Hs. exact Hs.
    + apply Forall_app. split.
      * eapply Forall_impl; [exact Hp|]. intros s Hs.
        cbv beta in *. unfold was_started in Hs.
        by rewrite existsb_app, Hs.
      * constructor; [|constructor].
        rewrite existsb_app. cbn.
        unfold same_node. cbn. rewrite Nat.eqb_refl.
        by rewrite orb_true_r.
  - cbn. apply Forall_forall. intros x Hx.
    apply list_elem_of_filter in Hx as [_ Hx].
    rewrite Forall_forall in Hp. by apply Hp.
  - unfold stop.
    pose proof (stop_sources_keeps_started (context p) (queue p)) as Hk.
    destruct (stop_sources (context p) (queue p)) as [c [e|]]; cbn in *.
    + eapply Forall_impl; [exact Hp|]. intros s.
      unfold was_started. by rewrite Hk.
    + constructor.
Qed.

Lemma reachable_queue_started p : reachable p -> queue_started p.
Proof.
  intros (st & evs & ->). induction evs as [|ev evs IH] using rev_ind.
  - constructor.
  - rewrite run_app. cbn. by apply step_queue_started.
Qed.

(** C3.  For every state a player can reach: [stop()] does not throw,
    calls [stop()] on every source of the queue (and on nothing else),
    leaves the queue empty and the cursor at [0].  With an empty queue
    it halts nothing and leaves the context as it is; the state is
    unchanged when the cursor is [0] already, and otherwise only the
    cursor moves, which the next chunk scheduled does not see once the
    clock has passed it (as it has when every source has ended).  A
    second
    [stop()] changes nothing, and a [playChunk] right after [stop()]
    behaves as the same call on a player just constructed. *)
Theorem stop_resets_the_player p :
  reachable p ->
  let p' := fst (stop p) in
  snd (stop p) = None /\
  ctx_stopped (context p') = ctx_stopped (context p) ++ queue p /\
  ctx_started (context p') = ctx_started (context p) /\
  queue p' = [] /\
  nextStartTime p' = time_zero /\
  (queue p = [] -> context p' = context p) /\
  (queue p = [] -> nextStartTime p = time_zero -> p' = p) /\
  (queue p = [] ->
   forall currentTime base64Audio channelData,
     decode_chunk base64Audio = inr channelData ->
     time_lt (nextStartTime p) currentTime = true ->
     time_lt time_zero currentTime = true ->
     same_behaviour (playChunk currentTime base64Audio p')
                    (playChunk currentTime base64Audio p)) /\
  stop p' = (p', None) /\
  (forall currentTime base64Audio st,
     same_behaviour (playChunk currentTime base64Audio p')
                    (playChunk currentTime base64Audio
                               (new_LiveAudioPlayer st))).
Proof.
  intros Hr p'. apply reachable_queue_started in Hr.
  assert (stop p
          = ({| context :=
                  {| ctx_state := ctx_state (context p);
                     ctx_created := ctx_created (context p);
                     ctx_started := ctx_started (context p);
                     ctx_stopped := ctx_stopped (context p) ++ queue p |};
                nextStartTime := time_zero; queue := [] |}, None)) as E.
  { unfold stop. by rewrite (stop_sources_started _ _ Hr). }
  subst p'. rewrite E.
  cbn [fst snd context ctx_stopped ctx_started queue nextStartTime].
  split; [reflexivity|]. split; [reflexivity|]. split; [reflexivity|].
  split; [reflexivity|]. split; [reflexivity|].
  split.
  { intros ->. rewrite app_nil_r. by destruct (context p). }
  split.
  { intros Hq Hn. destruct p as [c t q]. cbn in *. subst.
    rewrite app_nil_r. by destruct c. }
  split.
  { intros Hq currentTime base64Audio channelData Hd Hlt Hlt0.
    unfold same_behaviour, playChunk. rewrite Hd. cbn.
    by rewrite Hlt, Hlt0, Hq. }
  split.
  { reflexivity. }
  intros currentTime base64Audio st.
  unfold same_behaviour, playChunk.
  destruct (decode_chunk base64Audio); cbn; done.
Qed.

(** *** Sessions at any pace *)

(** The schedule of a session depends on the player through its cursor
    and the number of nodes it created only. *)
Lemma session_schedule_cursor p q (evs : list (session_event time)) :
  ctx_created (context p) = ctx_created (context q) ->
  nextStartTime p = nextStartTime q ->
  session_schedule p evs = session_schedule q evs.
Proof.
  revert p q. induction evs as [|[t b|s] evs IH]; intros p q Hc Hn;
    [reflexivity| |].
  - cbn [session_schedule]. unfold playChunk.
    destruct (decode_chunk b) as [e|d].
    + apply IH; cbn; assumption.
    + cbn [resumed ctx_created]. rewrite Hc, Hn. f_equal.
      apply IH; cbn; congruence.
  - cbn [session_schedule]. apply IH; cbn; assumption.
Qed.

(** The first source of a schedule starts at the cursor or after it,
    and the rest is the schedule of a player whose cursor is the end of
    that source. *)
Lemma session_schedule_first p (evs : list (session_event time)) s w rest :
  session_schedule p evs = (s, w) :: rest ->
  (w = nextStartTime p \/ time_lt (nextStartTime p) w = true) /\
  exists p' evs',
    rest = session_schedule p' evs' /\
    nextStartTime p' = time_add w (source_duration s).
Proof.
  revert p. induction evs as [|[t b|s0] evs IH]; intros p; [discriminate| |].
  - cbn [session_schedule]. unfold playChunk.
    destruct (decode_chunk b) as [e|d].
    + intros E. apply IH in E. exact E.
    + cbn [fst snd]. intros [= <- <- <-]. split.
      * destruct (time_lt (nextStartTime p) t) eqn:E; [by right|by left].
      * eexists _, evs. split; reflexivity.
  - cbn [session_schedule]. intros E. apply IH in E. exact E.
Qed.

(** X8.  In every session without [stop()], whatever the arrival times
    of the chunks, whether or not every chunk decodes and whichever
    sources end in between: a source never starts before the end of the
    source scheduled before it.  It starts exactly at that end, or at
    an instant the clock compares strictly after it (a gap, when the
    chunk arrived late); no two sources overlap. *)
Theorem sources_never_overlap p (evs : list (session_event time))
    (i : nat) (s s' : AudioBufferSourceNode) (w w' : time) :
  session_schedule p evs !! i = Some (s, w) ->
  session_schedule p evs !! S i = Some (s', w') ->
  w' = time_add w (source_duration s) \/
  time_lt (time_add w (source_duration s)) w' = true.
Proof.
  revert p evs. induction i as [|i IH]; intros p evs.
  - destruct (session_schedule p evs) as [|[s0 w0] rest] eqn:E; [discriminate|].
    intros [= -> ->] Hr.
    destruct (session_schedule_first _ _ _ _ _ E) as (_ & p' & evs' & -> & Hn).
    destruct (session_schedule p' evs') as [|[s1 w1] rest'] eqn:E';
      [discriminate|].
    cbn in Hr. injection Hr as -> ->.
    destruct (session_schedule_first _ _ _ _ _ E') as (Hw & _).
    by rewrite Hn in Hw.
  - destruct (session_schedule p evs) as [|[s0 w0] rest] eqn:E; [discriminate|].
    destruct (session_schedule_first _ _ _ _ _ E) as (_ & p' & evs' & -> & _).
    cbn. apply IH.
Qed.

(** X9.  A chunk that does not decode is skipped: [playChunk] throws
    the decoder's error and leaves the cursor, the queue and the list
    of started sources as they were, and the rest of the session is
    scheduled exactly as if the chunk had never arrived. *)
Theorem undecodable_chunk_is_skipped
    p (t : time) (b : Base64.js_string) (e : exn)
    (evs : list (session_event time)) :
  decode_chunk b = inl e ->
  snd (playChunk t b p) = Threw e /\
  nextStartTime (fst (playChunk t b p)) = nextStartTime p /\
  queue (fst (playChunk t b p)) = queue p /\
  ctx_started (context (fst (playChunk t b p))) = ctx_started (context p) /\
  session_schedule p (Enqueue t b :: evs) = session_schedule p evs.
Proof.
  intros Hd. cbn [session_schedule].
  rewrite (playChunk_threw _ _ _ _ Hd). cbn.
  repeat split. by apply session_schedule_cursor.
Qed.

(** *** The bookkeeping of nodes *)

Lemma new_LiveAudioPlayer_accounted st :
  nodes_accounted (new_LiveAudioPlayer st).
Proof. repeat split; cbn; constructor. Qed.

Lemma step_nodes_accounted p (ev : event time) :
  queue_started p -> nodes_accounted p -> nodes_accounted (step p ev).
Proof.
  intros Hq (Hs & Hn & Hb). destruct ev as [t b|s|]; cbn [step].
  - unfold playChunk. destruct (decode_chunk b) as [e|d]; cbn [fst].
    + by repeat split.
    + repeat split; cbn [context queue ctx_started ctx_created ctx_stopped
                         resumed].
      * rewrite map_app, Hs. cbn [map fst node_id].
        by rewrite seq_S.
      * rewrite app_assoc, map_app. cbn [map node_id].
        apply NoDup_app. split; [exact Hn|]. split; [|apply NoDup_singleton].
        intros x Hx ->%list_elem_of_singleton.
        apply list_elem_of_In, in_map_iff in Hx as (n & Hid & Hin).
        rewrite Forall_forall in Hb. apply list_elem_of_In, Hb in Hin. lia.
      * rewrite app_assoc. apply Forall_app. split.
        -- eapply Forall_impl; [exact Hb|]. intros x. cbv beta. lia.
        -- constructor; [cbn; lia|constructor].
  - cbn [onended context queue]. repeat split; [exact Hs| |].
    + eapply sublist_NoDup; [exact Hn|].
      change (map node_id ?l) with (node_id <$> l).
      apply fmap_sublist, sublist_app; [reflexivity|apply sublist_filter].
    + apply Forall_app in Hb as [Hb1 Hb2]. apply Forall_app. split; [done|].
      apply Forall_forall. intros x Hx%list_elem_of_filter.
      rewrite Forall_forall in Hb2. apply Hb2, Hx.
  - unfold stop. rewrite (stop_sources_started _ _ Hq). cbn [fst].
    unfold nodes_accounted.
    cbn [context queue ctx_started ctx_created ctx_stopped].
    rewrite app_nil_r. by repeat split.
Qed.

Lemma reachable_nodes_accounted p : reachable p -> nodes_accounted p.
Proof.
  intros (st & evs & ->). induction evs as [|ev evs IH] using rev_ind.
  - apply new_LiveAudioPlayer_accounted.
  - rewrite run_app. cbn. apply step_nodes_accounted; [|exact IH].
    apply reachable_queue_started. by exists st, evs.
Qed.

(** X10.  In every state a player can reach, the [k]-th node created is
    the [k]-th node started: [start()] has been called exactly once on
    every node and never twice on the same one (a second call would
    throw).  The queue holds distinct nodes, [stop()] has not been
    called twice on a node, and every node queued or stopped is one the
    player started. *)
Theorem every_node_is_started_once p :
  reachable p ->
  map (fun e => node_id (fst e)) (ctx_started (context p))
  = seq 0 (ctx_created (context p)) /\
  NoDup (map (fun e => node_id (fst e)) (ctx_started (context p))) /\
  NoDup (map node_id (queue p)) /\
  NoDup (map node_id (ctx_stopped (context p))) /\
  Forall (fun s => was_started (context p) s = true)
         (ctx_stopped (context p) ++ queue p).
Proof.
  intros Hr. destruct (reachable_nodes_accounted p Hr) as (Hs & Hn & Hb).
  rewrite map_app in Hn. apply NoDup_app in Hn as (Hn1 & _ & Hn2).
  split; [exact Hs|]. split; [rewrite Hs; apply NoDup_seq|].
  split; [exact Hn2|]. split; [exact Hn1|].
  eapply Forall_impl; [exact Hb|]. intros s Hlt. cbv beta in *.
  unfold was_started. apply existsb_exists.
  assert (In (node_id s) (map (fun e => node_id (fst e))
                              (ctx_started (context p)))) as Hin.
  { rewrite Hs. apply in_seq. lia. }
  apply in_map_iff in Hin as (e & He & Hin). exists e. split; [exact Hin|].
  unfold same_node. by apply Nat.eqb_eq.
Qed.

(** X11.  When a queued source ends, its [onended] handler takes
    exactly that source out of the queue: the sources before it and
    after it stay, in their order, and neither the context nor the
    cursor changes. *)
Theorem onended_removes_that_source
    p (source : AudioBufferSourceNode)
    (before after : list AudioBufferSourceNode) :
  reachable p ->
  queue p = before ++ source :: after ->
  queue (onended source p) = before ++ after /\
  context (onended source p) = context p /\
  nextStartTime (onended source p) = nextStartTime p.
Proof.
  intros Hr Hq. split; [|by split].
  destruct (reachable_nodes_accounted p Hr) as (_ & Hn & _).
  rewrite map_app in Hn. apply NoDup_app in Hn as (_ & _ & Hn).
  cbn [onended queue]. rewrite Hq in *. clear Hq.
  rewrite map_app in Hn. cbn [map] in Hn.
  apply NoDup_app in Hn as (_ & Hd1 & Hn).
  apply NoDup_cons in Hn as [Hd2 _].
  assert (forall l : list AudioBufferSourceNode,
            node_id source ∉ map node_id l ->
            filter (fun s => same_node s source = false) l = l) as Hkeep.
  { intros l Hl. apply Base64Facts.filter_all, Forall_forall. intros x Hx.
    unfold same_node. apply Nat.eqb_neq. intros E. apply Hl.
    rewrite <- E. apply list_elem_of_In, in_map, list_elem_of_In, Hx. }
  rewrite filter_app, filter_cons_False.
  2:{ unfold same_node. by rewrite Nat.eqb_refl. }
  rewrite !Hkeep; [reflexivity|exact Hd2|].
  intros Hin. apply (Hd1 _ Hin). by left.
Qed.

End LiveAudioPlayerFacts.

(** *** On the browser's binary64 clock *)

Module Binary64Facts.
Import Binary64.

Lemma late_chunk_starts_now_witness :
  exists source,
    snd (playChunk 5%float three_frames (new_LiveAudioPlayer running))
    = Scheduled source 5%float /\
    node_buffer source = channelData_of [0; 0; 0] /\
    ctx_started (context (fst (playChunk 5%float three_frames
                                         (new_LiveAudioPlayer running))))
    = [(source, 5%float)] /\
    nextStartTime (fst (playChunk 5%float three_frames
                                  (new_LiveAudioPlayer running)))
    = (5 + duration 3)%float.
Proof.
  exact (late_chunk_starts_now (new_LiveAudioPlayer running) 5%float
           three_frames (channelData_of [0; 0; 0]) eq_refl eq_refl).
Defined.

Lemma paced_session_keeps_pace :
  keeps_pace (new_LiveAudioPlayer running) paced_session.
Proof.
  cbn [keeps_pace paced_session].
  repeat split; try reflexivity; eexists; reflexivity.
Defined.

Lemma chunks_play_contiguously_witness :
  let p := new_LiveAudioPlayer running in
  let sched := session_schedule p paced_session in
  let durations := map (fun s => source_duration (fst s)) sched in
  Forall2 (fun b s => decode_chunk b = inr (node_buffer (fst s)))
          (session_chunks paced_session) sched /\
  ctx_started (context (run p (map event_of paced_session)))
  = ctx_started (context p) ++ sched /\
  (forall i s w,
     sched !! i = Some (s, w) ->
     w = fold_left time_add (take i durations) (nextStartTime p)) /\
  (forall i s w s' w',
     sched !! i = Some (s, w) -> sched !! S i = Some (s', w') ->
     w' = time_add w (source_duration s)).
Proof.
  exact (chunks_play_contiguously (new_LiveAudioPlayer running)
           paced_session paced_session_keeps_pace).
Defined.

(** The starts of that session: [0], one duration, two durations. *)
Example paced_session_starts :
  map snd (session_schedule (new_LiveAudioPlayer running) paced_session)
  = [0; duration 3; duration 3 + duration 3]%float.
Proof. reflexivity. Qed.

(** The example of the specification: three chunks of one second each
    (24000 frames), enqueued back to back, start at [0], [1] and [2]. *)
Example three_one_second_chunks :
  duration (Z.to_nat 24000) = 1%float /\
  start_times 0%float
    [duration (Z.to_nat 24000); duration (Z.to_nat 24000);
     duration (Z.to_nat 24000)]
  = [0; 1; 2]%float.
Proof. split; vm_compute; reflexivity. Qed.

Lemma stop_resets_the_player_witness :
  let p := run (new_LiveAudioPlayer suspended) two_chunks in
  snd (stop p) = None /\
  ctx_stopped (context (fst (stop p))) = queue p /\
  queue (fst (stop p)) = [] /\
  nextStartTime (fst (stop p)) = 0%float.
Proof.
  cbv zeta.
  destruct (stop_resets_the_player
              (run (new_LiveAudioPlayer suspended) two_chunks))
    as (H1 & H2 & _ & H4 & H5 & _).
  - by exists suspended, two_chunks.
  - split; [exact H1|]. split; [exact H2|]. split; [exact H4|exact H5].
Defined.

(** The exact model of the encoder and the binary64 computation agree on
    these samples: the values of the examples above, both infinities,
    [NaN], out-of-range values and the smallest positive 16-bit step. *)
Example encode_sample_agrees_with_binary64 :
  let samples :=
    [0.5; -0.5; 1; -1; 0.75; 0x1.0002p-1; 0x1p-15; 0x1.fffep-1;
     -0x1.fffep-1; 3.5; -2; 0; infinity; neg_infinity; nan]%float in
  map encode_sample_binary64 samples
  = map (fun x => encode_sample (float_value x)) samples
  /\ map encode_sample_binary64 samples
     = [16383; -16384; 32767; -32768; 24575; 16383; 0; 32766;
        -32767; 32767; -32768; 0; 32767; -32768; 0].
Proof. split; vm_compute; reflexivity. Qed.

(** A late chunk leaves a gap: the second source starts at [1], after
    the end of the first. *)
Lemma sources_never_overlap_witness :
  1%float = (0 + duration 3)%float \/
  PrimFloat.ltb (0 + duration 3)%float 1%float = true.
Proof.
  exact (sources_never_overlap (new_LiveAudioPlayer running) late_session 0
           silence {| node_id := 1; node_buffer := channelData_of [0; 0; 0] |}
           0%float 1%float eq_refl eq_refl).
Defined.

Lemma undecodable_chunk_is_skipped_witness :
  let p := new_LiveAudioPlayer running in
  snd (playChunk 0%float not_base64 p) = Threw InvalidCharacterError /\
  nextStartTime (fst (playChunk 0%float not_base64 p)) = 0%float /\
  queue (fst (playChunk 0%float not_base64 p)) = [] /\
  ctx_started (context (fst (playChunk 0%float not_base64 p))) = [] /\
  session_schedule p (Enqueue 0%float not_base64 :: late_session)
  = session_schedule p late_session.
Proof.
  exact (undecodable_chunk_is_skipped (new_LiveAudioPlayer running) 0%float
           not_base64 InvalidCharacterError late_session eq_refl).
Defined.

Lemma two_chunks_reachable :
  reachable (run (new_LiveAudioPlayer suspended) two_chunks).
Proof. by exists suspended, two_chunks. Defined.

Lemma every_node_is_started_once_witness :
  let p := run (new_LiveAudioPlayer suspended) two_chunks in
  map (fun e => node_id (fst e)) (ctx_started (context p)) = [0; 1]%nat /\
  NoDup (map node_id (queue p)).
Proof.
  cbv zeta.
  destruct (every_node_is_started_once _ two_chunks_reachable)
    as (H1 & _ & H3 & _).
  split; [exact H1|exact H3].
Defined.

Lemma onended_removes_that_source_witness :
  let p := run (new_LiveAudioPlayer suspended) two_chunks in
  let later := {| node_id := 1; node_buffer := channelData_of [0; 0; 0] |} in
  queue (onended silence p) = [later] /\
  context (onended silence p) = context p /\
  nextStartTime (onended silence p) = nextStartTime p.
Proof.
  exact (onended_removes_that_source
           (run (new_LiveAudioPlayer suspended) two_chunks) silence []
           [{| node_id := 1; node_buffer := channelData_of [0; 0; 0] |}]
           two_chunks_reachable eq_refl).
Defined.

End Binary64Facts.

(** ** Numbers without fractional part *)

Module NumberFacts.
Import Number.

(** Up to [2^53] in absolute value every integer is a number. *)
Lemma round_exact (z : Z) : Z.abs z <= 2 ^ 53 -> round z = Int z.
Proof.
  intros Hz. unfold round. cbv zeta.
  destruct (Z.leb_spec (Z.log2 (Z.abs z)) 52) as [|He]; [reflexivity|].
  assert (2 ^ 53 <= Z.abs z) as Hge.
  { destruct (Z_lt_le_dec (Z.abs z) (2 ^ 53)) as [Hlt|]; [|done].
    destruct (Z.eq_dec (Z.abs z) 0) as [E|Hne].
    - rewrite E in He. cbn in He. lia.
    - apply Z.log2_lt_pow2 in Hlt; lia. }
  change (2 ^ 53) with 9007199254740992 in *.
  assert (z = 9007199254740992 \/ z = -9007199254740992) as [-> | ->] by lia;
    vm_compute; reflexivity.
Qed.

Lemma add_exact (a b : Z) :
  Z.abs (a + b) <= 2 ^ 53 -> add (Int a) (Int b) = Int (a + b).
Proof. apply round_exact. Qed.

(** Rounding never takes a positive integer below [1]. *)
Lemma round_positive (z : Z) : 1 <= z -> le (Int 1) (round z) = true.
Proof.
  intros Hz. unfold round. cbv zeta.
  rewrite (Z.abs_eq z) by lia.
  destruct (Z.leb_spec (Z.log2 z) 52) as [|He]; [by apply Z.leb_le|].
  destruct (_ <=? _).
  { by destruct (Z.ltb_spec z 0); [lia|]. }
  cbn [le]. apply Z.leb_le.
  set (k := Z.log2 z - 52).
  assert (0 < 2 ^ k) as Hk by (apply Z.pow_pos_nonneg; lia).
  assert (2 ^ k <= z) as Hkz.
  { etrans; [|apply Z.log2_spec; lia].
    apply Z.pow_le_mono_r; lia. }
  assert (1 <= z / 2 ^ k) as Hq.
  { apply Z.div_le_lower_bound; lia. }
  unfold nearest_even. cbv zeta.
  set (q := z / 2 ^ k) in *.
  destruct (_ <? _); [nia|]. destruct (_ <? _); [nia|].
  destruct (Z.even q); nia.
Qed.

Lemma le_1_le_0 (x : number) : le (Int 1) x = true -> le (Int 0) x = true.
Proof.
  destruct x as [|[]|z]; cbn; try done.
  rewrite !Z.leb_le. lia.
Qed.

(** One more than a number that is not negative is at least [1]. *)
Lemma add_one_positive (s : number) :
  le (Int 0) s = true -> le (Int 1) (add s (Int 1)) = true.
Proof.
  destruct s as [|[]|z]; cbn [le add]; try done.
  intros Hz%Z.leb_le. apply round_positive. lia.
Qed.

(** [add] on the primitive binary64 addition: the two agree on
    [Binary64.integer_pairs]. *)
Example add_agrees_with_binary64 :
  Forall (fun '(a, b) =>
            Binary64.integer_of_float (a + b)%float
            = add (Binary64.integer_of_float a) (Binary64.integer_of_float b))
         Binary64.integer_pairs.
Proof.
  unfold Binary64.integer_pairs.
  repeat (constructor; [vm_compute; reflexivity|]). constructor.
Qed.

(** [le] on the primitive comparison, on the same pairs. *)
Example le_agrees_with_binary64 :
  Forall (fun '(a, b) =>
            PrimFloat.leb a b
            = le (Binary64.integer_of_float a) (Binary64.integer_of_float b))
         Binary64.integer_pairs.
Proof.
  unfold Binary64.integer_pairs.
  repeat (constructor; [vm_compute; reflexivity|]). constructor.
Qed.

(** At [2^53] one more is lost, and two more are not. *)
Example add_at_2_53 :
  add (Int (2 ^ 53)) (Int 1) = Int (2 ^ 53) /\
  add (Int (2 ^ 53)) (Int 2) = Int (2 ^ 53 + 2).
Proof. split; vm_compute; reflexivity. Qed.

End NumberFacts.

(** ** The progress store *)

Module DatabaseFacts.
Import Database.


Lemma sessions_add_refused db r :
  ~ session_key_free db r -> sessions_add db r = None.
Proof.
  unfold session_key_free, sessions_add. destruct (id r) as [k|].
  - by destruct (sessions_store db !! k).
  - intros Hk. cbv zeta.
    by destruct (Z.ltb_spec generator_limit (sessions_keygen db)); [|lia].
Qed.

Lemma db0_well_formed : well_formed db0.
Proof.
  split.
  - intros k u. cbn. intros Hk. apply lookup_singleton_Some in Hk as [<- <-].
    reflexivity.
  - intros k Hk. cbn in *. apply lookup_singleton_ne. lia.
Defined.

Lemma tuesday_time_values : time_values tuesday.
Proof. intros i. cbn. lia. Defined.

Lemma wednesday_time_values : time_values wednesday.
Proof. intros i. cbn. lia. Defined.




(** On the sample database: a session without [id] read the day after
    the last one takes [amy] from 10 stars and a streak of 2 to 14 stars
    and a streak of 3. *)
Example addSession_next_day :
  (fun u => (totalStars u, streak u, lastReadDate u))
    <$> users (snd (addSession "amy" session2 tuesday db0)) !! "amy"
  = Some (Number.Int 14, Number.Int 3, Some "Tue Nov 03 2026").
Proof. vm_compute. reflexivity. Qed.

(** A total of [2^53] stars stays where it is when one more star is
    added: the sum is not a number, and the nearest one is [2^53]. *)
Example addSession_at_2_53 :
  totalStars
    (update_user amy_with_many_stars
       {| id := None; date := "Tue"; timestamp := None; wordsRead := 55;
          accuracy := 90; stars := Number.Int 1; storyId := None;
          session_username := None; missedWords := None |}
       tuesday)
  = Number.Int (2 ^ 53).
Proof. vm_compute. reflexivity. Qed.

(** Once the generator has given the key [2^53], a session without
    [id] is refused, in a store that is well formed. *)
Example addSession_generator_exhausted :
  well_formed db_exhausted /\
  addSession "amy" session2 tuesday db_exhausted = (Rejected, db_exhausted).
Proof.
  split; [|vm_compute; reflexivity]. split.
  - intros k u. cbn. intros Hk. apply lookup_singleton_Some in Hk as [<- <-].
    reflexivity.
  - intros k Hk. unfold generator_limit in Hk. cbn in Hk. lia.
Qed.

(** The date 24 hours before is not always yesterday's.  For a user in
    New York who read on Sunday 8 March 2026 and reads again on Monday
    at 00:30, the instant 24 hours before lies on Saturday (the Sunday
    had 23 hours): the streak of 2 is reset to 1. *)
Example addSession_after_the_clocks_went_forward :
  lastReadDate amy_on_sunday = Some "Sun Mar 08 2026" /\
  today_string monday_in_new_york = "Mon Mar 09 2026" /\
  yesterday_string monday_in_new_york = "Sat Mar 07 2026" /\
  streak amy_on_sunday = Number.Int 2 /\
  streak (update_user amy_on_sunday session2 monday_in_new_york)
  = Number.Int 1.
Proof. repeat split; vm_compute; reflexivity. Qed.

End DatabaseFacts.

(** ** The other requests of the store *)

Module DatabaseServiceFacts.
Import Database DatabaseService.

Lemma session_keys_Permutation db :
  session_keys db ≡ₚ map fst (map_to_list (sessions_store db)).
Proof. apply merge_sort_Permutation. Qed.

Lemma session_keys_elem db (k : Z) :
  k ∈ session_keys db <-> is_Some (sessions_store db !! k).
Proof.
  rewrite session_keys_Permutation.
  change (map fst ?l) with (fst <$> l). rewrite list_elem_of_fmap. split.
  - intros ([k' r] & -> & Hin). apply elem_of_map_to_list in Hin. by exists r.
  - intros [r Hr]. exists (k, r). split; [done|].
    by apply elem_of_map_to_list.
Qed.

Lemma session_keys_sorted db : StronglySorted Z.le (session_keys db).
Proof. apply StronglySorted_merge_sort; apply _. Qed.

Lemma session_keys_insert db db' (k : Z) (r : ReadingSession) :
  sessions_store db !! k = None ->
  sessions_store db' = <[k := r]> (sessions_store db) ->
  session_keys db' ≡ₚ k :: session_keys db.
Proof.
  intros Hk E. rewrite !session_keys_Permutation, E.
  change (map fst ?l) with (fst <$> l).
  by rewrite (map_to_list_insert _ _ _ Hk).
Qed.

(** A key above every key of the store comes last. *)
Lemma session_keys_insert_last db db' (k : Z) (r : ReadingSession) :
  (forall k', k <= k' -> sessions_store db !! k' = None) ->
  sessions_store db' = <[k := r]> (sessions_store db) ->
  session_keys db' = session_keys db ++ [k].
Proof.
  intros Hk E.
  apply (StronglySorted_unique Z.le); [apply session_keys_sorted| |].
  - apply StronglySorted_app. split; [|split].
    + intros x1 x2 H1 ->%list_elem_of_singleton.
      apply session_keys_elem in H1 as [r1 H1].
      destruct (Z_le_gt_dec k x1) as [Hle|]; [|lia].
      rewrite (Hk _ Hle) in H1. discriminate.
    + apply session_keys_sorted.
    + repeat constructor.
  - rewrite (session_keys_insert db db' k r); [|apply Hk; lia|exact E].
    by rewrite Permutation_app_comm.
Qed.

Lemma omap_lookup_insert_fresh (m : gmap Z ReadingSession) (k : Z)
    (r : ReadingSession) (l : list Z) :
  k ∉ l ->
  omap (fun k' => <[k := r]> m !! k') l = omap (fun k' => m !! k') l.
Proof.
  intros Hk. apply list_omap_ext, Forall2_same_length_lookup.
  split; [done|]. intros i x y Hx Hy. rewrite Hx in Hy. injection Hy as <-.
  apply lookup_insert_ne. intros ->. apply Hk.
  by eapply list_elem_of_lookup_2.
Qed.


Lemma getUserSessions_insert_last db db' (k : Z) (r : ReadingSession)
    (name : string) :
  (forall k', k <= k' -> sessions_store db !! k' = None) ->
  sessions_store db' = <[k := r]> (sessions_store db) ->
  getUserSessions name db'
  = getUserSessions name db
    ++ (if decide (session_username r = Some name) then [r] else []).
Proof.
  intros Hk E. unfold getUserSessions.
  rewrite (session_keys_insert_last db db' k r Hk E). rewrite E.
  rewrite omap_app, filter_app. f_equal.
  - rewrite omap_lookup_insert_fresh; [done|].
    rewrite session_keys_elem, (Hk k) by lia. by intros [? ?].
  - cbn [omap list_omap]. rewrite lookup_insert_eq.
    rewrite filter_cons. by destruct (decide _).
Qed.




(** What [sessionStore.add] does to the database when it accepts a
    record: the record goes under a key [k] that was free, the one it
    carries or the generator's current number. *)
Lemma sessions_add_Some db r db1 :
  sessions_add db r = Some db1 ->
  exists k,
    sessions_store db !! k = None /\
    users db1 = users db /\
    sessions_store db1 = <[k := with_id r k]> (sessions_store db) /\
    match id r with
    | Some k' =>
        k' = k /\
        sessions_keygen db1
        = Z.max (sessions_keygen db) (Z.min k generator_limit + 1)
    | None =>
        k = sessions_keygen db /\ k <= generator_limit /\
        sessions_keygen db1 = k + 1
    end.
Proof.
  unfold sessions_add. destruct (id r) as [k|].
  - destruct (sessions_store db !! k) eqn:Hk; [discriminate|].
    intros [= <-]. exists k. by repeat split.
  - cbv zeta. destruct (Z.ltb_spec generator_limit (sessions_keygen db));
      [discriminate|].
    destruct (sessions_store db !! sessions_keygen db) eqn:Hk; [discriminate|].
    intros [= <-]. exists (sessions_keygen db). by repeat split.
Qed.

(** What [addSession] does, in full: when the store refuses the record
    the call is rejected and nothing changes, else the record is stored
    and the user, if there is one, is updated. *)
Lemma addSession_cases (name : string) (session : ReadingSession)
    (ck : wall_clock) (db : IDBDatabase) :
  addSession name session ck db
  = match sessions_add db (session_record session name ck) with
    | None => (Rejected, db)
    | Some db1 =>
        (Resolved,
         match users db !! name with
         | Some user => users_put db1 (update_user user session ck)
         | None => db1
         end)
    end.
Proof.
  unfold addSession.
  destruct (sessions_add db _) as [db1|] eqn:E; [|reflexivity].
  apply sessions_add_Some in E as (k & _ & -> & _).
  by destruct (users db !! name).
Qed.

Lemma users_put_well_formed db user :
  well_formed db -> well_formed (users_put db user).
Proof.
  intros [Hu Hs]. split; [|exact Hs]. intros k u. cbn [users_put users].
  destruct (decide (k = username user)) as [->|Hne].
  - rewrite lookup_insert_eq. by intros [= <-].
  - rewrite lookup_insert_ne by done. apply Hu.
Qed.

Lemma sessions_add_well_formed db r db1 :
  well_formed db -> sessions_add db r = Some db1 -> well_formed db1.
Proof.
  intros [Hu Hs] E.
  apply sessions_add_Some in E as (k & Hk & Eu & Es & Eg).
  split; [by rewrite Eu|]. intros k' Hk'. rewrite Es.
  destruct (id r) as [k0|].
  - destruct Eg as [-> Eg]. rewrite Eg in Hk'.
    rewrite lookup_insert_ne by lia. apply Hs. lia.
  - destruct Eg as (-> & Hl & Eg). rewrite Eg in Hk'.
    rewrite lookup_insert_ne by lia. apply Hs. lia.
Qed.

Lemma addSession_well_formed name session ck db :
  well_formed db -> well_formed (snd (addSession name session ck db)).
Proof.
  intros Hwf. rewrite addSession_cases.
  destruct (sessions_add db _) as [db1|] eqn:E; [|exact Hwf]. cbn [snd].
  pose proof (sessions_add_well_formed _ _ _ Hwf E) as H1.
  destruct (users db !! name); [by apply users_put_well_formed|exact H1].
Qed.

(** A session without [id], as the application records them, is
    accepted as long as the generator has keys left: it takes the
    generator's current number. *)
Lemma addSession_without_id (name : string) (session : ReadingSession)
    (ck : wall_clock) (db : IDBDatabase) :
  well_formed db ->
  id session = None ->
  sessions_keygen db <= generator_limit ->
  let k := sessions_keygen db in
  let db1 :=
    {| users := users db;
       sessions_store :=
         <[k := with_id (session_record session name ck) k]>
           (sessions_store db);
       sessions_keygen := k + 1 |} in
  addSession name session ck db
  = (Resolved,
     match users db !! name with
     | Some user => users_put db1 (update_user user session ck)
     | None => db1
     end).
Proof.
  intros [_ Hgen] Hid Hl. rewrite addSession_cases. cbv zeta.
  unfold sessions_add. cbn [session_record id]. rewrite Hid. cbv zeta.
  destruct (Z.ltb_spec generator_limit (sessions_keygen db)); [lia|].
  by rewrite (Hgen (sessions_keygen db)) by lia.
Qed.

Lemma addSession_without_id_history (name : string) (session : ReadingSession)
    (ck : wall_clock) (db : IDBDatabase) (other : string) :
  well_formed db ->
  keys_below_generator db ->
  id session = None ->
  sessions_keygen db <= generator_limit ->
  getUserSessions other (snd (addSession name session ck db))
  = getUserSessions other db
    ++ (if decide (other = name)
        then [with_id (session_record session name ck) (sessions_keygen db)]
        else []).
Proof.
  intros Hwf Hgen Hid Hl. rewrite (addSession_without_id _ _ _ _ Hwf Hid Hl).
  cbv zeta. cbn [snd].
  set (record := with_id _ _).
  rewrite (getUserSessions_insert_last db _ (sessions_keygen db) record
             other Hgen).
  2:{ by destruct (users db !! name). }
  f_equal. subst record. cbn [with_id session_record session_username].
  destruct (decide (other = name)) as [->|Hne].
  - by rewrite decide_True.
  - rewrite decide_False; [done|congruence].
Qed.

Lemma addSession_without_id_keys (name : string) (session : ReadingSession)
    (ck : wall_clock) (db : IDBDatabase) :
  well_formed db ->
  keys_below_generator db ->
  id session = None ->
  sessions_keygen db <= generator_limit ->
  keys_below_generator (snd (addSession name session ck db)) /\
  sessions_keygen (snd (addSession name session ck db))
  = sessions_keygen db + 1.
Proof.
  intros Hwf Hgen Hid Hl. rewrite (addSession_without_id _ _ _ _ Hwf Hid Hl).
  cbv zeta. cbn [snd]. split.
  - intros k Hk.
    assert (sessions_keygen db + 1 <= k) as Hk'
      by (by destruct (users db !! name)).
    assert (<[sessions_keygen db :=
                with_id (session_record session name ck) (sessions_keygen db)]>
              (sessions_store db) !! k = None) as E.
    { rewrite lookup_insert_ne by lia. apply Hgen. lia. }
    by destruct (users db !! name).
  - by destruct (users db !! name).
Qed.

(** X12.  A session without [id] (as the application records them)
    added to a well-formed store whose keys are all below its key
    generator is accepted as long as the generator has not passed
    [2^53], whether or not the user exists: it is stored under the
    generator's current number with that key as [id], the user's name
    and the time of the call, and comes last in that user's
    [getUserSessions]; the sessions of every other user are returned as
    before, and the generator moves on by one.  For a name without user
    record the session is stored all the same and no user is created.
    Once the generator has passed [2^53] the call is rejected and
    nothing changes. *)
Theorem addSession_appends_to_history
    (name : string) (session : ReadingSession) (ck : wall_clock)
    (db : IDBDatabase) :
  well_formed db ->
  keys_below_generator db ->
  id session = None ->
  let result := addSession name session ck db in
  let record :=
    with_id (session_record session name ck) (sessions_keygen db) in
  (sessions_keygen db <= 2 ^ 53 ->
   fst result = Resolved /\
   getUserSessions name (snd result) = getUserSessions name db ++ [record] /\
   record
   = {| id := Some (sessions_keygen db); date := date session;
        timestamp := Some (Date_reads ck 0%nat);
        wordsRead := wordsRead session; accuracy := accuracy session;
        stars := stars session; storyId := storyId session;
        session_username := Some name;
        missedWords := missedWords session |} /\
   (forall other, other <> name ->
      getUserSessions other (snd result) = getUserSessions other db) /\
   sessions_keygen (snd result) = sessions_keygen db + 1 /\
   keys_below_generator (snd result) /\
   (getUser name db = None -> users (snd result) = users db)) /\
  (2 ^ 53 < sessions_keygen db -> result = (Rejected, db)).
Proof.
  intros Hwf Hgen Hid result record. subst result. split.
  - intros Hl. fold generator_limit in Hl.
    split; [|split; [|split; [|split; [|split; [|split]]]]].
    + by rewrite (addSession_without_id _ _ _ _ Hwf Hid Hl).
    + rewrite (addSession_without_id_history _ _ _ _ _ Hwf Hgen Hid Hl).
      by rewrite decide_True.
    + reflexivity.
    + intros other Hne.
      rewrite (addSession_without_id_history _ _ _ _ _ Hwf Hgen Hid Hl).
      rewrite decide_False by done. apply app_nil_r.
    + apply (addSession_without_id_keys _ _ _ _ Hwf Hgen Hid Hl).
    + apply (addSession_without_id_keys _ _ _ _ Hwf Hgen Hid Hl).
    + rewrite (addSession_without_id _ _ _ _ Hwf Hid Hl). cbv zeta.
      unfold getUser. by intros ->.
  - intros Hl. fold generator_limit in Hl. rewrite addSession_cases.
    rewrite DatabaseFacts.sessions_add_refused; [reflexivity|].
    unfold session_key_free. cbn [session_record id]. rewrite Hid. lia.
Qed.

Lemma db0_keys_below_generator : keys_below_generator db0.
Proof. intros k Hk. cbn in *. apply lookup_singleton_ne. lia. Defined.

Lemma addSession_appends_to_history_witness :
  fst (addSession "amy" session2 tuesday db0) = Resolved /\
  getUserSessions "amy" (snd (addSession "amy" session2 tuesday db0))
  = getUserSessions "amy" db0
    ++ [with_id (session_record session2 "amy" tuesday) 2] /\
  sessions_keygen (snd (addSession "amy" session2 tuesday db0)) = 3.
Proof.
  destruct (addSession_appends_to_history "amy" session2 tuesday db0
              DatabaseFacts.db0_well_formed db0_keys_below_generator eq_refl)
    as [H _].
  destruct H as (H1 & H2 & _ & _ & H4 & _); [cbn; lia|].
  split; [exact H1|]. split; [exact H2|exact H4].
Defined.

(** X14.  Two sessions without [id] recorded one after the other for
    an existing user, in a store whose generator has two keys left: the
    stars of both are added to the user's total, one after the other
    and as numbers are added, which gives the exact sum when the stars
    and the totals are integers of at most [2^53] in absolute value;
    both sessions come last in the user's history, in that order; and
    the second one leaves the streak of the first as it is when both
    fall on the same date, makes it one more when the instant 24 hours
    before the second falls on the date of the first, and resets it to
    [1] otherwise. *)
Theorem two_sessions_in_a_row
    (name : string) (s1 s2 : ReadingSession) (ck1 ck2 : wall_clock)
    (db : IDBDatabase) (user : User) :
  well_formed db ->
  keys_below_generator db ->
  sessions_keygen db < 2 ^ 53 ->
  time_values ck1 -> time_values ck2 ->
  users db !! name = Some user ->
  id s1 = None -> id s2 = None ->
  let db1 := snd (addSession name s1 ck1 db) in
  let db2 := snd (addSession name s2 ck2 db1) in
  exists u1 u2,
    users db1 !! name = Some u1 /\
    users db2 !! name = Some u2 /\
    totalStars u2
    = Number.add (Number.add (totalStars user) (stars s1)) (stars s2) /\
    (forall a b c,
       totalStars user = Number.Int a ->
       stars s1 = Number.Int b -> stars s2 = Number.Int c ->
       Z.abs (a + b) <= 2 ^ 53 -> Z.abs (a + b + c) <= 2 ^ 53 ->
       totalStars u2 = Number.Int (a + b + c)) /\
    lastReadDate u2 = Some (today_string ck2) /\
    streak u2
    = (if decide (today_string ck2 = today_string ck1) then streak u1
       else if decide (toDateString ck2 (Date_reads ck2 2%nat - 86400000)
                       = today_string ck1)
            then Number.add (streak u1) (Number.Int 1)
            else Number.Int 1) /\
    getUserSessions name db2
    = getUserSessions name db
      ++ [with_id (session_record s1 name ck1) (sessions_keygen db);
          with_id (session_record s2 name ck2) (sessions_keygen db + 1)].
Proof.
  intros Hwf Hgen Hl _ _ Hu Hid1 Hid2 db1 db2.
  fold generator_limit in Hl.
  assert (sessions_keygen db <= generator_limit) as Hl0 by lia.
  pose proof (addSession_well_formed name s1 ck1 db Hwf) as Hwf1.
  fold db1 in Hwf1.
  destruct (addSession_without_id_keys name s1 ck1 db Hwf Hgen Hid1 Hl0)
    as [Hgen1 Hg1]. fold db1 in Hgen1, Hg1.
  assert (sessions_keygen db1 <= generator_limit) as Hl1 by lia.
  pose proof (addSession_without_id_history name s1 ck1 db name Hwf Hgen
                Hid1 Hl0) as Hh1.
  fold db1 in Hh1. rewrite decide_True in Hh1 by done.
  pose proof (addSession_without_id_history name s2 ck2 db1 name Hwf1 Hgen1
                Hid2 Hl1) as Hh2.
  fold db2 in Hh2. rewrite decide_True in Hh2 by done.
  pose proof (addSession_without_id name s1 ck1 db Hwf Hid1 Hl0) as E1.
  cbv zeta in E1. rewrite Hu in E1.
  assert (username user = name) as Hn by (by apply (proj1 Hwf)).
  assert (users db1 !! name = Some (update_user user s1 ck1)) as Hu1.
  { subst db1. rewrite E1. cbn [snd users_put users update_user username].
    rewrite Hn. apply lookup_insert_eq. }
  pose proof (addSession_without_id name s2 ck2 db1 Hwf1 Hid2 Hl1) as E2.
  cbv zeta in E2. rewrite Hu1 in E2.
  exists (update_user user s1 ck1),
         (update_user (update_user user s1 ck1) s2 ck2).
  split; [exact Hu1|]. split.
  { subst db2. rewrite E2. cbn [snd users_put users update_user username].
    rewrite Hn. apply lookup_insert_eq. }
  cbn [update_user totalStars lastReadDate streak].
  split; [reflexivity|]. split.
  { intros a b c -> -> -> Hab Habc.
    rewrite (NumberFacts.add_exact a b Hab).
    by apply NumberFacts.add_exact. }
  split; [reflexivity|]. split.
  - unfold next_streak at 1. unfold yesterday_string.
    cbn [update_user lastReadDate streak].
    repeat case_decide; congruence.
  - rewrite Hh2, Hh1, Hg1, <- app_assoc. reflexivity.
Qed.

Lemma two_sessions_in_a_row_witness :
  exists u1 u2,
    users (snd (addSession "amy" session2 tuesday db0)) !! "amy" = Some u1 /\
    users (snd (addSession "amy" session2 wednesday
                  (snd (addSession "amy" session2 tuesday db0)))) !! "amy"
    = Some u2 /\
    totalStars u2 = Number.Int 18 /\
    lastReadDate u2 = Some (today_string wednesday) /\
    streak u2 = Number.add (streak u1) (Number.Int 1).
Proof.
  destruct (two_sessions_in_a_row "amy" session2 session2 tuesday wednesday
              db0 amy DatabaseFacts.db0_well_formed db0_keys_below_generator
              ltac:(cbn; lia) DatabaseFacts.tuesday_time_values
              DatabaseFacts.wednesday_time_values eq_refl eq_refl eq_refl)
    as (u1 & u2 & H1 & H2 & _ & H3 & H4 & H5 & _).
  exists u1, u2. split; [exact H1|]. split; [exact H2|].
  split; [exact (H3 10 4 4 eq_refl eq_refl eq_refl ltac:(cbn; lia)
                    ltac:(cbn; lia))|].
  split; [exact H4|exact H5].
Defined.

End DatabaseServiceFacts.

(** ** The client of the store *)

Module MockApiClientFacts.
Import Database DatabaseService DatabaseServiceFacts MockApiClient.

Section Client.

Context `{Browser}.

Lemma issue_token_idb user name ck c :
  idb (snd (issue_token user name ck c)) = idb c.
Proof. unfold issue_token. by destruct (generateToken name ck). Qed.

Lemma login_idb name pw ck c : idb (snd (login name pw ck c)) = idb c.
Proof.
  unfold login. destruct (getUser name (idb c)); [|done].
  cbv zeta. case_decide; [apply issue_token_idb|done].
Qed.

(** A new name is registered whatever becomes of the token. *)
Lemma register_idb name pw avatar0 ck c :
  idb (snd (register name pw avatar0 ck c))
  = match getUser name (idb c) with
    | Some _ => idb c
    | None => users_put (idb c) (newUser name pw avatar0)
    end.
Proof.
  unfold register, createUser, getUser.
  destruct (users (idb c) !! name) eqn:E; [done|].
  cbn [newUser username]. rewrite E. by rewrite issue_token_idb.
Qed.

(** X15.  Before a name is registered, [login] under it is rejected
    with "User not found." and changes nothing.  Registering a name
    that is not taken stores a user with no stars, no streak, the
    default settings and the hash of the password, and changes no
    other user; the call is fulfilled with
    that user and a token is stored (the base64 text of the JSON of the
    name, the time of the call and the time 24 hours after a second
    reading of the clock), unless making the token throws, in which
    case the call is rejected although the account now exists.  From
    then on, [login] with the same password is fulfilled with that user
    when its token can be made and rejected with the exception of
    [btoa] when it cannot, [login] with a password of another hash is
    rejected with "Incorrect password." and changes nothing,
    registering the name again is rejected with "Username already
    taken." and changes nothing, and the [users] store itself refuses a
    second record under the name. *)
Theorem register_then_login
    (name pw avatar0 : string) (ck : wall_clock) (c : client) :
  getUser name (idb c) = None ->
  let user := newUser name pw avatar0 in
  let result := register name pw avatar0 ck c in
  (username user, avatar user, totalStars user, streak user, settings user,
   password user, lastReadDate user, sessions user, customStories user)
  = (name, avatar0, Number.Int 0, Number.Int 0,
     {| font := LEXEND; fontSize := 2; letterSpacing := 1; lineHeight := 2;
        highContrast := false; readingRuler := false;
        rulerColor := "#fef08a" |},
     Some (hashPassword pw), Some EmptyString, [], []) /\
  getUser name (idb (snd result)) = Some user /\
  generateToken name ck
  = Base64.btoa
      (JSON_stringify
         {| sub := name; iat := Date_reads ck 0%nat;
            exp := Date_reads ck 1%nat + 86400000 |}) /\
  (forall other, other <> name ->
     getUser other (idb (snd result)) = getUser other (idb c)) /\
  sessions_store (idb (snd result)) = sessions_store (idb c) /\
  match generateToken name ck with
  | inr token =>
      fst result = Fulfilled user /\
      access_token (snd result) = Some token
  | inl e =>
      fst result = Failed (Uncaught e) /\
      access_token (snd result) = access_token c
  end /\
  (forall ck',
     fst (login name pw ck' (snd result))
     = match generateToken name ck' with
       | inr _ => Fulfilled user
       | inl e => Failed (Uncaught e)
       end) /\
  (forall pw' ck',
     hashPassword pw' <> hashPassword pw ->
     login name pw' ck' (snd result)
     = (Failed Incorrect_password, snd result)) /\
  (forall pw' avatar' ck',
     register name pw' avatar' ck' (snd result)
     = (Failed Username_already_taken, snd result)) /\
  (forall user',
     username user' = name ->
     createUser user' (idb (snd result)) = (Rejected, idb (snd result))) /\
  (forall pw' ck', login name pw' ck' c = (Failed User_not_found, c)).
Proof.
  intros Hfree user result.
  assert (idb (snd result) = users_put (idb c) user) as Hdb.
  { subst result. by rewrite register_idb, Hfree. }
  assert (getUser name (idb (snd result)) = Some user) as Hget.
  { rewrite Hdb. unfold getUser. cbn. apply lookup_insert_eq. }
  split; [reflexivity|]. split; [exact Hget|]. split; [reflexivity|].
  split; [|split; [|split; [|split; [|split; [|split; [|split]]]]]].
  - intros other Hne. rewrite Hdb. unfold getUser. cbn.
    by apply lookup_insert_ne.
  - by rewrite Hdb.
  - subst result. unfold register, createUser.
    rewrite Hfree. unfold getUser in Hfree. cbn [newUser username].
    rewrite Hfree. unfold issue_token.
    by destruct (generateToken name ck).
  - intros ck'. unfold login. rewrite Hget. cbv zeta.
    rewrite decide_True by done. unfold issue_token.
    change (username user) with name.
    by destruct (generateToken name ck').
  - intros pw' ck' Hne. unfold login. rewrite Hget. cbv zeta.
    rewrite decide_False; [done|]. cbn. congruence.
  - intros pw' avatar' ck'. unfold register. by rewrite Hget.
  - intros user' Hn. unfold createUser. unfold getUser in Hget.
    by rewrite Hn, Hget.
  - intros pw' ck'. unfold login. by rewrite Hfree.
Qed.


(** *** What every sequence of calls keeps *)

Lemma perform_all_invariant (P : IDBDatabase -> Prop) :
  P new_database ->
  (forall c x, P (idb c) -> P (idb (perform c x))) ->
  forall xs, P (idb (perform_all new_client xs)).
Proof.
  intros H0 Hstep xs. unfold perform_all.
  induction xs as [|x xs IH] using rev_ind; [exact H0|].
  rewrite fold_left_app. cbn. by apply Hstep.
Qed.

(** The database after one call. *)
Lemma perform_idb c x :
  idb (perform c x)
  = match x with
    | Login _ _ _ | Logout => idb c
    | Register name pw avatar0 ck =>
        match getUser name (idb c) with
        | Some _ => idb c
        | None => users_put (idb c) (newUser name pw avatar0)
        end
    | UpdateSettings name s =>
        match getUser name (idb c) with
        | Some user => users_put (idb c) (with_settings user s)
        | None => idb c
        end
    | AddStory name story =>
        match getUser name (idb c) with
        | Some user => users_put (idb c) (with_story user story)
        | None => idb c
        end
    | AddSession name session ck =>
        snd (Database.addSession name session ck (idb c))
    end.
Proof.
  destruct x as [name pw ck|name pw avatar0 ck|name s|name session ck
                 |name story|]; cbn [perform].
  - apply login_idb.
  - apply register_idb.
  - unfold updateSettings. by destruct (getUser name (idb c)).
  - reflexivity.
  - unfold addStory. by destruct (getUser name (idb c)).
  - reflexivity.
Qed.

(** A property of the database that the [put] of a new user, the [put]
    of a user whose name, stars, streak and last reading day are kept,
    and [addSession] keep, is kept by every call.  [Q] is what is known
    of the user and the session in a call of [addSession]. *)
Lemma perform_keeps (P : IDBDatabase -> Prop)
    (Q : IDBDatabase -> string -> ReadingSession -> Prop) c x :
  (forall db user, P db -> users db !! username user = None ->
     totalStars user = Number.Int 0 -> streak user = Number.Int 0 ->
     lastReadDate user = Some EmptyString ->
     P (users_put db user)) ->
  (forall db name user user', P db -> users db !! name = Some user ->
     username user' = username user -> totalStars user' = totalStars user ->
     streak user' = streak user -> lastReadDate user' = lastReadDate user ->
     P (users_put db user')) ->
  (forall db name session ck, P db -> Q db name session ->
     P (snd (Database.addSession name session ck db))) ->
  match x with
  | AddSession name session _ => Q (idb c) name session
  | _ => True
  end ->
  P (idb c) -> P (idb (perform c x)).
Proof.
  intros Hnew Hput Hadd Hq Hc. rewrite perform_idb.
  destruct x as [name pw ck|name pw avatar0 ck|name s|name session ck
                 |name story|]; try exact Hc.
  - unfold getUser. destruct (users (idb c) !! name) eqn:Hu; [exact Hc|].
    by apply Hnew.
  - unfold getUser. destruct (users (idb c) !! name) eqn:Hu; [|exact Hc].
    by apply (Hput _ name u).
  - by apply Hadd.
  - unfold getUser. destruct (users (idb c) !! name) eqn:Hu; [|exact Hc].
    by apply (Hput _ name u).
Qed.

(** What [addSession] keeps of the sessions store. *)
Lemma addSession_sessions_store (P : Z -> gmap Z ReadingSession -> Prop)
    name session ck db :
  P (sessions_keygen db) (sessions_store db) ->
  (forall k,
     sessions_store db !! k = None ->
     match id session with
     | Some k' => k' = k
     | None => k = sessions_keygen db /\ k <= generator_limit
     end ->
     P (match id session with
        | Some _ => Z.max (sessions_keygen db) (Z.min k generator_limit + 1)
        | None => k + 1
        end)
       (<[k := with_id (session_record session name ck) k]>
          (sessions_store db))) ->
  P (sessions_keygen (snd (Database.addSession name session ck db)))
    (sessions_store (snd (Database.addSession name session ck db))).
Proof.
  intros Hdb Hk. rewrite addSession_cases.
  destruct (sessions_add db _) as [db1|] eqn:E; [|exact Hdb]. cbn [snd].
  apply sessions_add_Some in E as (k & Hfree & _ & Es & Eg).
  cbn [session_record id] in Eg.
  assert (P (sessions_keygen db1) (sessions_store db1)) as H1.
  { rewrite Es. specialize (Hk k Hfree).
    destruct (id session) as [k'|].
    - destruct Eg as [-> ->]. by apply Hk.
    - destruct Eg as (-> & Hl & ->). by apply Hk. }
  by destruct (users db !! name).
Qed.

(** X17.  Whatever calls are made on a new client, in whatever order
    and with whatever arguments, both stores stay well formed: every
    user record sits under its own [username]; the key generator stays
    between [1] and [2^53 + 1] and no key that it can still give is
    taken; and every stored session carries its key as [id], a
    [username] and a [timestamp].  A [logout] after these calls leaves
    no token, and the database as it was. *)
Theorem stores_stay_well_formed (xs : list call) :
  let db := idb (perform_all new_client xs) in
  perform_all new_client (xs ++ [Logout])
  = {| idb := db; access_token := None |} /\
  (forall k u, users db !! k = Some u -> username u = k) /\
  1 <= sessions_keygen db <= 2 ^ 53 + 1 /\
  (forall k, sessions_keygen db <= k <= 2 ^ 53 ->
     sessions_store db !! k = None) /\
  (forall k r, sessions_store db !! k = Some r ->
     id r = Some k /\
     is_Some (session_username r) /\ is_Some (timestamp r)).
Proof.
  cbv zeta. split.
  { unfold perform_all. by rewrite fold_left_app. }
  set (P := fun db : IDBDatabase =>
              well_formed db /\
              1 <= sessions_keygen db <= 2 ^ 53 + 1 /\
              (forall k r, sessions_store db !! k = Some r ->
                 id r = Some k /\
                 is_Some (session_username r) /\ is_Some (timestamp r))).
  assert (P (idb (perform_all new_client xs))) as (Hwf & Hg & Hs).
  2:{ destruct Hwf as [Hu Hk].
      split; [exact Hu|]. split; [exact Hg|]. split; [exact Hk|exact Hs]. }
  apply (perform_all_invariant P); subst P; cbv beta.
  - split; [split; cbn|split; [cbn; lia|]].
    + intros k u. by rewrite lookup_empty.
    + intros k _. apply lookup_empty.
    + intros k r; cbn; by rewrite lookup_empty.
  - intros c x.
    apply (perform_keeps
             (fun db : IDBDatabase =>
                well_formed db /\
                1 <= sessions_keygen db <= 2 ^ 53 + 1 /\
                (forall k r, sessions_store db !! k = Some r ->
                   id r = Some k /\
                   is_Some (session_username r) /\ is_Some (timestamp r)))
             (fun _ _ _ => True)); [| | |by destruct x].
    + intros db user (Hwf & Hrest) _ _ _ _.
      split; [by apply users_put_well_formed|exact Hrest].
    + intros db name user user' (Hwf & Hrest) _ _ _ _ _.
      split; [by apply users_put_well_formed|exact Hrest].
    + intros db name session ck (Hwf & Hg & Hst) _.
      split; [by apply addSession_well_formed|].
      apply (addSession_sessions_store
               (fun g m =>
                  1 <= g <= 2 ^ 53 + 1 /\
                  (forall k r, m !! k = Some r ->
                     id r = Some k /\
                     is_Some (session_username r) /\ is_Some (timestamp r))));
        [by split|].
      intros k Hfree Hk. split.
      * unfold generator_limit in *. destruct (id session); lia.
      * intros k' r. destruct (decide (k' = k)) as [->|Hne].
        -- rewrite lookup_insert_eq. intros [= <-].
           split; [done|]. by split; eexists.
        -- rewrite lookup_insert_ne by done. apply Hst.
Qed.

(** X18.  Whatever calls are made on a new client, no user ever has a
    negative streak, and a user whose [lastReadDate] is set (it is the
    empty string until the first session) has a streak of at least
    [1]. *)
Theorem streak_is_positive_once_read
    (xs : list call) (name : string) (user : User) :
  getUser name (idb (perform_all new_client xs)) = Some user ->
  Number.le (Number.Int 0) (streak user) = true /\
  (lastReadDate user <> Some EmptyString ->
   Number.le (Number.Int 1) (streak user) = true).
Proof.
  unfold getUser. revert name user.
  set (P := fun u : User =>
              Number.le (Number.Int 0) (streak u) = true /\
              (lastReadDate u <> Some EmptyString ->
               Number.le (Number.Int 1) (streak u) = true)).
  assert (forall db user, (forall n u, users db !! n = Some u -> P u) ->
            P user ->
            forall n u, users (users_put db user) !! n = Some u -> P u)
    as Hputs.
  { intros db user Hdb Hu n u. cbn [users_put users].
    destruct (decide (n = username user)) as [->|Hne].
    - rewrite lookup_insert_eq. by intros [= <-].
    - rewrite lookup_insert_ne by done. apply Hdb. }
  apply (perform_all_invariant
           (fun db => forall n u, users db !! n = Some u -> P u)).
  - intros n u. cbn. by rewrite lookup_empty.
  - intros c x.
    apply (perform_keeps
             (fun db => forall n u, users db !! n = Some u -> P u)
             (fun _ _ _ => True)); [| | |by destruct x].
    + intros db user Hdb _ _ Hs Hl. apply Hputs; [exact Hdb|].
      split; [by rewrite Hs|]. by rewrite Hl.
    + intros db n user user' Hdb Hu _ _ Hs Hl. apply Hputs; [exact Hdb|].
      destruct (Hdb _ _ Hu) as [H1 H2]. split; rewrite Hs; [done|].
      by rewrite Hl.
    + intros db n session ck Hdb _. rewrite addSession_cases.
      destruct (sessions_add db _) as [db1|] eqn:E; [|exact Hdb]. cbn [snd].
      apply sessions_add_Some in E as (k & _ & Eu & _).
      destruct (users db !! n) as [user|] eqn:Hu;
        [|intros n' u; rewrite Eu; apply Hdb].
      apply Hputs; [intros n' u; rewrite Eu; apply Hdb|].
      destruct (Hdb _ _ Hu) as [H1 H2].
      split; cbn [update_user streak lastReadDate]; unfold next_streak;
        cbv zeta; repeat case_decide; try done.
      * by apply NumberFacts.le_1_le_0, NumberFacts.add_one_positive.
      * intros Ht. apply H2. congruence.
      * intros _. by apply NumberFacts.add_one_positive.
Qed.










End Client.

End MockApiClientFacts.

(** *** On sample calls *)

Module MockApiClientExamples.
Import Database DatabaseService MockApiClient MockApiClient.Samples.
Import MockApiClientFacts.

Lemma register_then_login_witness :
  getUser "amy"
    (idb (snd (register "amy" "secret" "A" tuesday new_client)))
  = Some (newUser "amy" "secret" "A") /\
  fst (register "amy" "secret" "A" tuesday new_client)
  = Fulfilled (newUser "amy" "secret" "A") /\
  fst (login "amy" "secret" wednesday
         (snd (register "amy" "secret" "A" tuesday new_client)))
  = Fulfilled (newUser "amy" "secret" "A") /\
  login "amy" "guess" wednesday
    (snd (register "amy" "secret" "A" tuesday new_client))
  = (Failed Incorrect_password,
     snd (register "amy" "secret" "A" tuesday new_client)).
Proof.
  destruct (register_then_login "amy" "secret" "A" tuesday new_client eq_refl)
    as (_ & H2 & _ & _ & _ & H5 & H6 & H7 & _).
  split; [exact H2|]. split; [exact (proj1 H5)|].
  split; [exact (H6 wednesday)|].
  apply H7. vm_compute. discriminate.
Defined.


Lemma streak_is_positive_once_read_witness :
  exists user,
    getUser "amy" (idb (perform_all new_client sample_calls)) = Some user /\
    Number.le (Number.Int 0) (streak user) = true /\
    (lastReadDate user <> Some EmptyString ->
     Number.le (Number.Int 1) (streak user) = true).
Proof.
  eexists. split; [reflexivity|].
  exact (streak_is_positive_once_read sample_calls "amy" _ eq_refl).
Defined.




(** After the sample calls (registration, a session of 4 stars on
    Tuesday, new settings, a session of 4 stars on Wednesday) the user
    has 8 stars, the stars of her two sessions, which were given the
    keys [1] and [2], and a streak of 2. *)
Example sample_calls_result :
  (fun u => (totalStars u, streak u, lastReadDate u))
    <$> getUser "amy" (idb (perform_all new_client sample_calls))
  = Some (Number.Int 8, Number.Int 2, Some "Wed Nov 04 2026") /\
  stars_of_sessions "amy" (idb (perform_all new_client sample_calls)) = 8 /\
  omap id (getSessions "amy" (perform_all new_client sample_calls)) = [1; 2] /\
  sessions_keygen (idb (perform_all new_client sample_calls)) = 3.
Proof. repeat split; vm_compute; reflexivity. Qed.

End MockApiClientExamples.

(** ** The backend route *)

Module ServerFacts.
Import Database.

(** X20.  The backend route [POST /api/sessions] computes the same
    aggregates as [DatabaseService.addSession] (its comment says "same
    as frontend"): for every user row, session and date, the new total
    of stars, the new streak and the new [lastReadDate] are those of
    the record the client writes. *)
Theorem server_aggregates_agree_with_the_client
    (user : User) (s : ReadingSession) (ck : wall_clock) :
  let user' := update_user user s ck in
  Server.session_aggregates user s ck
  = (totalStars user', streak user', today_string ck) /\
  lastReadDate user' = Some (today_string ck).
Proof.
  split; [|reflexivity].
  unfold Server.session_aggregates, update_user, next_streak. cbv zeta.
  cbn [totalStars streak]. repeat case_decide; congruence.
Qed.

End ServerFacts.

(** ** The learner's history in a story request *)

Module AdaptiveStoryFacts.
Import Database AdaptiveStory.

Lemma fold_Set_add (words seen : list string) :
  NoDup seen ->
  NoDup (fold_left Set_add words seen) /\
  (forall w, w ∈ fold_left Set_add words seen <-> w ∈ seen \/ w ∈ words) /\
  seen `prefix_of` fold_left Set_add words seen.
Proof.
  revert seen. induction words as [|x words IH]; intros seen Hnd.
  - cbn. split; [done|]. split; [|done]. intros w. rewrite elem_of_nil. tauto.
  - cbn [fold_left]. unfold Set_add at 2 4 6.
    destruct (decide (x ∈ seen)) as [Hin|Hnin].
    + destruct (IH seen Hnd) as (H1 & H2 & H3). split; [done|].
      split; [|done]. intros w. rewrite H2, elem_of_cons.
      split; [tauto|]. intros [?|[->|?]]; tauto.
    + destruct (IH (seen ++ [x])) as (H1 & H2 & H3).
      { apply NoDup_app. split; [done|]. split; [|apply NoDup_singleton].
        intros y Hy ->%list_elem_of_singleton. done. }
      split; [done|]. split.
      * intros w. rewrite H2, elem_of_app, list_elem_of_singleton, elem_of_cons.
        tauto.
      * etrans; [|exact H3]. by apply prefix_app_r.
Qed.

Lemma Array_from_Set_spec (words : list string) :
  NoDup (Array_from_Set words) /\
  (forall w, w ∈ Array_from_Set words <-> w ∈ words).
Proof.
  destruct (fold_Set_add words [] NoDup_nil_2) as (H1 & H2 & _).
  split; [exact H1|]. intros w. unfold Array_from_Set. rewrite H2.
  rewrite elem_of_nil. tauto.
Qed.

(** A [Set] keeps its elements in the order of insertion: the list made
    from it holds each word where it first appeared. *)
Lemma Array_from_Set_first_appearance (words : list string) :
  Array_from_Set words = reverse (remove_dups (reverse words)).
Proof.
  induction words as [|x words IH] using rev_ind; [reflexivity|].
  unfold Array_from_Set in *. rewrite fold_left_app. cbn [fold_left].
  rewrite reverse_app. change (reverse [x]) with [x]. cbn [app remove_dups].
  unfold Set_add at 1. rewrite IH.
  destruct (decide_rel elem_of x (reverse words)) as [Hin|Hnin].
  - rewrite decide_True; [done|].
    by rewrite elem_of_reverse, elem_of_remove_dups.
  - rewrite decide_False; [by rewrite reverse_cons|].
    by rewrite elem_of_reverse, elem_of_remove_dups.
Qed.

Lemma allMissedWords_concat (sessions : list ReadingSession) :
  allMissedWords sessions = concat (omap missedWords sessions).
Proof.
  unfold allMissedWords.
  induction sessions as [|s sessions IH]; [reflexivity|].
  cbn [flat_map omap list_omap]. rewrite IH.
  by destruct (missedWords s).
Qed.

Lemma allMissedWords_elem (sessions : list ReadingSession) (w : string) :
  w ∈ allMissedWords sessions <->
  exists s ws, s ∈ sessions /\ missedWords s = Some ws /\ w ∈ ws.
Proof.
  unfold allMissedWords. rewrite list_elem_of_In, in_flat_map. split.
  - intros (s & Hs & Hw). destruct (missedWords s) as [ws|] eqn:E;
      [|destruct Hw].
    exists s, ws. by rewrite !list_elem_of_In.
  - intros (s & ws & Hs & E & Hw). exists s. rewrite E.
    by rewrite <- !list_elem_of_In.
Qed.

(** X21.  The words that [handleCreateStory] collects are the missed
    words of the user's sessions, in the order of the sessions; the
    learner profile it passes to [generateStory] is made of the last 20
    (of all, if there are fewer) of the distinct words among them,
    taken in the order of their first appearance.  So the profile holds
    at most 20 words, no word twice, and only words that some session
    lists as missed; it is empty exactly when no session lists a missed
    word, and then the prompt has no adaptive instruction.  Otherwise
    the instruction names the first 8 words of the profile (all of
    them, if there are fewer): at least one word and none twice. *)
Theorem adaptive_prompt_names_missed_words (sessions : list ReadingSession) :
  let all := allMissedWords sessions in
  let distinct := reverse (remove_dups (reverse all)) in
  let profile := uniqueMissed sessions in
  all = concat (omap missedWords sessions) /\
  profile `suffix_of` distinct /\
  length profile = Nat.min 20 (length distinct) /\
  NoDup profile /\
  (forall w, w ∈ profile ->
     exists s ws, s ∈ sessions /\ missedWords s = Some ws /\ w ∈ ws) /\
  (profile = [] <-> all = []) /\
  match recentMisses profile with
  | None => all = []
  | Some words =>
      words `prefix_of` profile /\
      length words = Nat.min 8 (length profile) /\
      words <> [] /\ NoDup words
  end.
Proof.
  cbv zeta. rewrite <- Array_from_Set_first_appearance.
  unfold uniqueMissed, slice_last.
  destruct (Array_from_Set_spec (allMissedWords sessions)) as [Hnd Hel].
  set (set := Array_from_Set (allMissedWords sessions)) in *.
  set (profile := drop (length set - 20) set).
  assert (profile `sublist_of` set) as Hsub by apply sublist_drop.
  assert (NoDup profile) as Hnd' by (by eapply sublist_NoDup).
  assert (profile = [] <-> allMissedWords sessions = []) as Hnil.
  { split.
    - intros E. apply (f_equal length) in E. subst profile.
      rewrite length_drop in E. cbn in E.
      assert (length set = 0%nat) as E' by lia.
      apply nil_length_inv in E'.
      destruct (allMissedWords sessions) as [|w l]; [done|].
      assert (w ∈ set) as Hw by (apply Hel; by left).
      rewrite E' in Hw. by apply elem_of_nil in Hw.
    - intros E. subst profile set. by rewrite E. }
  split; [apply allMissedWords_concat|].
  split; [apply suffix_drop|].
  split; [subst profile; rewrite length_drop; lia|].
  split; [exact Hnd'|]. split; [|split; [exact Hnil|]].
  - intros w Hw. apply allMissedWords_elem, Hel.
    by eapply elem_of_sublist.
  - unfold recentMisses, slice_first.
    destruct profile as [|w l] eqn:E; [by apply Hnil|]. rewrite <- E.
    split; [apply prefix_take|]. split; [apply length_take|].
    split; [by rewrite E|].
    eapply sublist_NoDup; [exact Hnd'|]. rewrite E. apply sublist_take.
Qed.

(** Of 21 distinct missed words the profile drops the first, and the
    instruction names the second to the ninth. *)
Example adaptive_prompt_of_21_words :
  let session words :=
    {| id := None; date := "Tue"; timestamp := None; wordsRead := 55;
       accuracy := 90; stars := Number.Int 4; storyId := None;
       session_username := Some "amy"; missedWords := words |} in
  let sessions :=
    [session (Some ["a"; "b"; "c"; "a"; "d"; "e"; "f"; "g"]);
     session None;
     session (Some ["h"; "b"; "i"; "j"; "k"; "l"; "m"; "n"; "o"]);
     session (Some ["p"; "q"; "r"; "s"; "o"; "t"; "u"])] in
  uniqueMissed sessions
  = ["b"; "c"; "d"; "e"; "f"; "g"; "h"; "i"; "j"; "k"; "l"; "m"; "n"; "o";
     "p"; "q"; "r"; "s"; "t"; "u"] /\
  recentMisses (uniqueMissed sessions)
  = Some ["b"; "c"; "d"; "e"; "f"; "g"; "h"; "i"].
Proof. split; vm_compute; reflexivity. Qed.

End AdaptiveStoryFacts.

(** ** A recording on its way to the analysis *)

Module RecordingFacts.
Import Base64 Recording.
Local Open Scope N_scope.

Lemma split_comma_plain (s : js_string) :
  Forall (fun c => c <> comma) s -> split_comma s = [s].
Proof.
  induction 1 as [|c s Hc _ IH]; [reflexivity|].
  cbn [split_comma]. rewrite IH.
  by destruct (N.eqb_spec c comma).
Qed.

Lemma split_comma_app (s t : js_string) :
  Forall (fun c => c <> comma) s ->
  split_comma (s ++ comma :: t) = s :: split_comma t.
Proof.
  induction 1 as [|c s Hc _ IH]; [reflexivity|].
  cbn [app split_comma]. rewrite IH.
  by destruct (N.eqb_spec c comma).
Qed.

Lemma base64_char_not_comma (c : N) : is_base64_char c = true -> c <> comma.
Proof. intros H ->. discriminate H. Qed.

(** X22.  A recording reaches the analysis as recorded: for every
    content of the blob, what [analyzeReading] keeps of the data URL
    made by [blobToBase64] is exactly the base64 text of the recorded
    bytes, which decodes to these bytes; a text without prefix is kept
    as it is.  The one exception is the empty recording: nothing
    follows the comma, and the whole URL, prefix included, is kept. *)
Theorem recording_reaches_the_analysis (blob : list byte) :
  exists text url,
    arrayBufferToBase64 blob = inr text /\
    Recording.blobToBase64 blob = inr url /\
    base64Data url = (if decide (blob = []) then url else text) /\
    base64ToUint8Array text = inr blob /\
    base64Data text = text.
Proof.
  destruct (arrayBufferToBase64_defined blob) as (text & Ht & Hc & Hd).
  exists text, (data_url_prefix ++ text).
  assert (Forall (fun c => c <> comma) text) as Hplain.
  { eapply Forall_impl; [exact Hc|]. intros c. apply base64_char_not_comma. }
  split; [exact Ht|]. split.
  { unfold Recording.blobToBase64. unfold arrayBufferToBase64 in Ht.
    cbv zeta in Ht. by rewrite Ht. }
  split; [|split].
  - unfold base64Data.
    change data_url_prefix
      with ([100; 97; 116; 97; 58; 97; 117; 100; 105; 111; 47; 119; 97; 118;
             59; 98; 97; 115; 101; 54; 52] ++ [comma]).
    rewrite <- app_assoc. change ([comma] ++ text) with (comma :: text).
    rewrite split_comma_app by (repeat constructor; discriminate).
    rewrite (split_comma_plain _ Hplain). cbn [lookup list_lookup].
    destruct text as [|c text].
    + destruct blob as [|b blob]; [by rewrite decide_True|].
      apply arrayBufferToBase64_length in Ht. cbn [length] in Ht.
      exfalso. revert Ht. generalize (length blob). intros n E.
      assert (1 <= (S n + 2) / 3)%nat
        by (apply Nat.div_le_lower_bound; lia).
      lia.
    + destruct blob as [|b blob]; [|by rewrite decide_False].
      discriminate Ht.
  - unfold base64ToUint8Array. by rewrite Hd, Uint8_store_bytes.
  - unfold base64Data. rewrite (split_comma_plain _ Hplain). reflexivity.
Qed.

End RecordingFacts.
